(** * Sales CRM: the data model and the route handlers of [main.py]

    A shallow embedding of the persistence and query layer of the Sales CRM
    application ([src/main.py]): the two ORM classes, the seeding routine and
    the route handlers, followed by the properties of the specification that
    are settled on them.

    The relational store is modelled as two tables, each a list of rows kept
    in rowid order.  In SQLite an [INTEGER PRIMARY KEY] column is the rowid;
    a full scan visits rows by ascending rowid, and a new row receives the
    largest rowid in the table plus one, so a table is at the same time in
    id order and in insertion order.  Timestamps ([datetime]) are counted in
    microseconds, as integers. *)

From Stdlib Require Import ZArith QArith Qround List Lia.
From stdpp Require Import gmap strings list fin_maps pretty sorting.

Local Open Scope string_scope.
Local Open Scope list_scope.
Local Open Scope Z_scope.

(** ** Database models *)

Module Contact.
(** [class Contact(Base)]: a row of the [contacts] table.  Every write
    in [main.py] fills [name], [email] and [status] from a [str] and
    [phone], [company] and [competitive_intel] from an [Optional[str]]
    ([None] is stored as NULL). *)
Record t := mk {
  id : Z;
  name : string;
  email : string;
  phone : option string;
  company : option string;
  status : string;
  competitive_intel : option string;
  created_at : Z
}.
End Contact.

Module Activity.
(** [class Activity(Base)]: a row of the [activities] table. *)
Record t := mk {
  id : Z;
  contact_id : Z;
  description : string;
  timestamp : Z
}.
End Activity.

(** The store a [Session] is bound to: both tables, in rowid order. *)
Record Store := mkStore {
  contacts : list Contact.t;
  activities : list Activity.t
}.

Definition empty_store : Store := mkStore [] [].

(** The rowid SQLite gives to an inserted row: [1] in an empty table,
    otherwise one more than the largest rowid present.  (Its random choice
    once the largest rowid is [2^63 - 1] is out of reach of the handlers,
    which insert one row at a time starting from the empty table.) *)
Definition next_rowid (ids : list Z) : Z :=
  match ids with
  | [] => 1
  | i :: rest => foldr Z.max i rest + 1
  end.

(** [db.add(Contact(...)); db.commit()]: the row is appended with a fresh
    id. The inserted row is returned, as [db.refresh] would load it. *)
Definition insert_contact (db : Store)
    (name email : string) (phone company : option string) (status : string)
    (competitive_intel : option string) (created_at : Z) : Store * Contact.t :=
  let c := Contact.mk (next_rowid (Contact.id <$> contacts db))
             name email phone company status competitive_intel created_at in
  (mkStore (contacts db ++ [c]) (activities db), c).

(** [db.add(Activity(...)); db.commit()]. *)
Definition insert_activity (db : Store)
    (contact_id : Z) (description : string) (timestamp : Z) : Store * Activity.t :=
  let a := Activity.mk (next_rowid (Activity.id <$> activities db))
             contact_id description timestamp in
  (mkStore (contacts db) (activities db ++ [a]), a).

(** [db.query(Contact).filter(Contact.id == contact_id).first()]. *)
Definition query_contact (db : Store) (contact_id : Z) : option Contact.t :=
  find (fun c => Contact.id c =? contact_id) (contacts db).

(** [db.query(Contact).first()]: the first row of the scan, if any. *)
Definition first_contact (db : Store) : option Contact.t :=
  head (contacts db).

(** [contact.activities]: the relationship declares no [order_by], so the
    rows of the contact come in scan order. *)
Definition contact_activities (db : Store) (c : Contact.t) : list Activity.t :=
  filter (fun a => Activity.contact_id a = Contact.id c) (activities db).

(** ** Routes *)

(** The four keys of [grouped] in [kanban_board]. *)
Definition canonical_statuses : list string :=
  ["Lead"; "Contacted"; "Proposal"; "Closed"].

(** [grouped = {"Lead": [], "Contacted": [], "Proposal": [], "Closed": []}] *)
Definition grouped_init : gmap string (list Contact.t) :=
  <["Lead" := []]> (<["Contacted" := []]> (<["Proposal" := []]>
    (<["Closed" := []]> ∅))).

(** The body of the loop of [kanban_board]:
    [if c.status in grouped: grouped[c.status].append(c)]. *)
Definition kanban_step (grouped : gmap string (list Contact.t)) (c : Contact.t)
    : gmap string (list Contact.t) :=
  match grouped !! Contact.status c with
  | Some bucket => <[Contact.status c := bucket ++ [c]]> grouped
  | None => grouped
  end.

(** [kanban_board]: the value handed to the template as
    [contacts_by_status]. *)
Definition kanban_board (db : Store) : gmap string (list Contact.t) :=
  foldl kanban_step grouped_init (contacts db).

(** The number of contacts on the board, over all buckets. *)
Definition board_total (grouped : gmap string (list Contact.t)) : nat :=
  map_fold (fun _ bucket n => (length bucket + n)%nat) 0%nat grouped.

Definition is_canonical (s : string) : Prop := s ∈ canonical_statuses.

(** What a handler returns: a rendered template with its context, a
    redirect, a raised [HTTPException], or the [OverflowError] of the
    database driver, which no handler catches and the server answers with
    status 500. *)
Inductive Response (A : Type) : Type :=
  | TemplateResponse (context : A)
  | RedirectResponse (url : string)
  | HTTPException (status_code : Z) (detail : string)
  | OverflowError.
Arguments TemplateResponse {A} context.
Arguments RedirectResponse {A} url.
Arguments HTTPException {A} status_code detail.
Arguments OverflowError {A}.

(** The integers the SQLite driver accepts as a query parameter: those of
    the signed 64-bit range.  For any other [int] the execution of the query
    raises [OverflowError] ("Python int too large to convert to SQLite
    INTEGER"). *)
Definition sqlite_integer (i : Z) : bool :=
  (- 2 ^ 63 <=? i) && (i <? 2 ^ 63).

(** The outcome of a handler whose query
    [db.query(Contact).filter(Contact.id == contact_id).first()] gave no
    contact: the 404 of [if not contact: raise HTTPException(...)] when the
    driver could bind [contact_id], the driver's [OverflowError] when it
    could not.  The ids of rows are rowids, which are 64-bit, so an id the
    driver refuses is the id of no row: the handlers below look the id up
    first and tell the two outcomes apart where the lookup found nothing,
    which gives on every database the answers of the source, where the
    refusal comes before any row is read. *)
Definition no_contact {A : Type} (contact_id : Z) : Response A :=
  if sqlite_integer contact_id
  then HTTPException 404 "Contact not found"
  else OverflowError.

(** [ORDER BY created_at DESC] over the scan.  SQL leaves the order of rows
    with equal keys to the engine; SQLite's sorter keeps them in the order
    in which the scan fed them, which is what this insertion does: a row is
    placed in front of every later row that is not strictly newer. *)
Fixpoint insert_desc (c : Contact.t) (sorted : list Contact.t) : list Contact.t :=
  match sorted with
  | [] => [c]
  | x :: rest =>
      if Contact.created_at c <? Contact.created_at x
      then x :: insert_desc c rest
      else c :: x :: rest
  end.

Definition order_by_created_at_desc (rows : list Contact.t) : list Contact.t :=
  foldr insert_desc [] rows.

(** [list_contacts]: the [contacts] entry of the template context. *)
Definition list_contacts (db : Store) : list Contact.t :=
  order_by_created_at_desc (contacts db).

(** [status: str = Form("Lead")]: the value the framework passes for a form
    field that may be absent.  A field submitted with an empty value counts
    as absent, like a field that was not submitted. *)
Definition Form (default : string) (submitted : option string) : string :=
  match submitted with
  | Some (String c rest) => String c rest
  | Some EmptyString => default
  | None => default
  end.

(** [create_contact]; [now] is the reading of [datetime.datetime.utcnow]
    that the column default of [created_at] takes at the insert. *)
Definition create_contact (now : Z)
    (name email : string) (phone company : option string) (status : string)
    (competitive_intel : option string) (db : Store) : Store * Response unit :=
  let '(db', _) :=
    insert_contact db name email phone company status competitive_intel now in
  (db', RedirectResponse "/contacts").

(** [edit_contact]: the detail view of one contact. *)
Definition edit_contact (contact_id : Z) (db : Store) : Response Contact.t :=
  match query_contact db contact_id with
  | None => no_contact contact_id
  | Some contact => TemplateResponse contact
  end.

(** The [UPDATE contacts SET ... WHERE id = ?] that the commit of
    [update_contact] issues for the modified object. *)
Definition update_row (contact_id : Z)
    (name email : string) (phone company : option string) (status : string)
    (competitive_intel : option string) (c : Contact.t) : Contact.t :=
  if Contact.id c =? contact_id
  then Contact.mk (Contact.id c) name email phone company status
         competitive_intel (Contact.created_at c)
  else c.

Definition contact_url (contact_id : Z) : string :=
  String.append "/contacts/" (pretty contact_id).

(** [update_contact] *)
Definition update_contact (contact_id : Z)
    (name email : string) (phone company : option string) (status : string)
    (competitive_intel : option string) (db : Store) : Store * Response unit :=
  match query_contact db contact_id with
  | None => (db, no_contact contact_id)
  | Some contact =>
      (mkStore
         (update_row (Contact.id contact) name email phone company status
            competitive_intel <$> contacts db)
         (activities db),
       RedirectResponse (contact_url contact_id))
  end.

(** [add_activity]; [now] is the reading of the clock that the column
    default of [timestamp] takes at the insert. *)
Definition add_activity (now : Z) (contact_id : Z) (description : string)
    (db : Store) : Store * Response unit :=
  match query_contact db contact_id with
  | None => (db, no_contact contact_id)
  | Some contact =>
      let '(db', _) := insert_activity db (Contact.id contact) description now in
      (db', RedirectResponse (contact_url contact_id))
  end.

(** ** Seeding logic *)

Module Fixture.
(** An entry of [initial_contacts]. *)
Record t := mk {
  name : string;
  email : string;
  company : string;
  status : string;
  intel : string
}.
End Fixture.

Definition initial_contacts : list Fixture.t := [
  Fixture.mk "Alice Johnson" "alice@techcorp.com" "TechCorp" "Lead"
    "Expanding to Europe next Q.";
  Fixture.mk "Bob Smith" "bob@startups.inc" "Startups Inc" "Contacted"
    "Considering competitor X due to pricing.";
  Fixture.mk "Charlie Brown" "charlie@enterprise.global" "Enterprise Global"
    "Proposal" "Budget approval pending board meeting.";
  Fixture.mk "Diana Prince" "diana@amazonia.net" "Amazonia" "Closed"
    "Long-term contract signed.";
  Fixture.mk "Evan Wright" "evan@logistics.co" "Logistics Co" "Lead"
    "Looking for fleet management solutions.";
  Fixture.mk "Fiona Green" "fiona@ecofriendly.org" "EcoFriendly" "Contacted"
    "Grant funding secured recently.";
  Fixture.mk "George King" "george@royal.ltd" "Royal Ltd" "Proposal"
    "Competitor Y offering 20% discount.";
  Fixture.mk "Hannah White" "hannah@medical.care" "Medical Care" "Closed"
    "Needs HIPAA compliance features.";
  Fixture.mk "Ian Black" "ian@construction.works" "Construction Works" "Lead"
    "New project starting in downtown.";
  Fixture.mk "Jane Doe" "jane@unknown.net" "Unknown Net" "Contacted"
    "Skeptical about cloud deployment."
].

(** [int(x)] on a number: truncation toward zero. *)
Definition py_int (x : Q) : Z :=
  if Qle_bool 0 x then Qfloor x else Qceiling x.

(** [int(10 * (h % 10) / 10 + 1)] for [h = hash(data["name"])].  [%] is
    Python's, with a result in [0, 10); [/] is the true division, whose
    floating-point results are exact on these operands (a multiple of ten
    below 100 over ten), so that rationals compute the same values. *)
Definition backdate_days (h : Z) : Z :=
  py_int (inject_Z (10 * (h mod 10)) / inject_Z 10 + 1)%Q.

(** [datetime.timedelta(days=d)], in microseconds. *)
Definition timedelta_days (d : Z) : Z := d * 86400000000.

(** [f"Initial contact created via {data['status']} campaign."] *)
Definition initial_activity_description (status : string) : string :=
  String.append "Initial contact created via "
    (String.append status " campaign.").

Section Seeding.
(** The interpreter's builtin [hash] on [str], as it is in the running
    process. *)
Variable hash : string -> Z.
(** [utcnow k] is the [k]-th reading of [datetime.datetime.utcnow()]
    made during the call of [seed_data]. *)
Variable utcnow : nat -> Z.

(** The [created_at] computed for a fixture, from the clock reading
    [now]. *)
Definition seed_created_at (now : Z) (data : Fixture.t) : Z :=
  now - timedelta_days (backdate_days (hash (Fixture.name data))).

(** One iteration of [for data in initial_contacts]; the state carries
    the number of clock readings made so far. *)
Definition seed_one (st : Store * nat) (data : Fixture.t) : Store * nat :=
  let '(db, k) := st in
  let '(db1, contact) :=
    insert_contact db (Fixture.name data) (Fixture.email data)
      (Some "555-0100") (Some (Fixture.company data)) (Fixture.status data)
      (Some (Fixture.intel data)) (seed_created_at (utcnow k) data) in
  let '(db2, _) :=
    insert_activity db1 (Contact.id contact)
      (initial_activity_description (Fixture.status data))
      (utcnow (S k)) in
  (db2, S (S k)).

(** [seed_data]: nothing is done when [db.query(Contact).first()] is a
    row; otherwise the loop runs over the fixtures. *)
Definition seed_data (db : Store) : Store :=
  match first_contact db with
  | Some _ => db
  | None => fst (foldl seed_one (db, 0%nat) initial_contacts)
  end.
End Seeding.

(** ** The builtin [hash] of CPython on [str]

    [hash] is not part of the application; it is the interpreter's.  On a
    64-bit CPython (3.11 and later) the hash of a [str] is SipHash-1-3 of the
    bytes of the string (one byte per character for an ASCII string), keyed
    with the hash secret of the process.  The secret is drawn at random when
    the interpreter starts, unless [PYTHONHASHSEED] fixes it. *)
Module PyHash.
Definition u64 (x : Z) : Z := x mod 2 ^ 64.

Definition rotate (x b : Z) : Z :=
  Z.lor (u64 (Z.shiftl x b)) (Z.shiftr x (64 - b)).

Definition sipstate : Type := Z * Z * Z * Z.

Definition half_round (v : sipstate) (s t : Z) : sipstate :=
  let '(a, b, c, d) := v in
  let a := u64 (a + b) in
  let c := u64 (c + d) in
  let b := Z.lxor (rotate b s) a in
  let d := Z.lxor (rotate d t) c in
  let a := rotate a 32 in
  (a, b, c, d).

Definition single_round (v : sipstate) : sipstate :=
  let '(v0, v1, v2, v3) := half_round v 13 16 in
  let '(v2, v1, v0, v3) := half_round (v2, v1, v0, v3) 17 21 in
  (v0, v1, v2, v3).

(** A little-endian word from its bytes. *)
Definition le64 (bytes : list Z) : Z :=
  foldr (fun b acc => b + 256 * acc) 0 bytes.

Definition absorb (v : sipstate) (m : Z) : sipstate :=
  let '(v0, v1, v2, v3) := v in
  let '(v0, v1, v2, v3) := single_round (v0, v1, v2, Z.lxor v3 m) in
  (Z.lxor v0 m, v1, v2, v3).

(** The loop [while (src_sz >= 8)]; returns the state and the bytes left
    over. *)
Fixpoint compress (v : sipstate) (input : list Z) : sipstate * list Z :=
  match input with
  | b0 :: b1 :: b2 :: b3 :: b4 :: b5 :: b6 :: b7 :: rest =>
      compress (absorb v (le64 [b0; b1; b2; b3; b4; b5; b6; b7])) rest
  | _ => (v, input)
  end.

Definition siphash13 (k0 k1 : Z) (src : list Z) : Z :=
  let b := u64 (Z.shiftl (Z.of_nat (length src)) 56) in
  let v0 := Z.lxor k0 0x736f6d6570736575 in
  let v1 := Z.lxor k1 0x646f72616e646f6d in
  let v2 := Z.lxor k0 0x6c7967656e657261 in
  let v3 := Z.lxor k1 0x7465646279746573 in
  let '(v, tail) := compress (v0, v1, v2, v3) src in
  let b := Z.lor b (le64 tail) in
  let '(v0, v1, v2, v3) := absorb v b in
  let v2 := Z.lxor v2 0xff in
  let '(v0, v1, v2, v3) :=
    single_round (single_round (single_round (v0, v1, v2, v3))) in
  Z.lxor (Z.lxor v0 v1) (Z.lxor v2 v3).

Definition bytes_of (s : string) : list Z :=
  (fun c => Z.of_N (Ascii.N_of_ascii c)) <$> String.list_ascii_of_string s.

(** [_Py_HashBytes]: the empty string hashes to 0; the result is read as
    a signed 64-bit integer, and [-1] is replaced by [-2]. *)
Definition hash_bytes (k0 k1 : Z) (src : list Z) : Z :=
  match src with
  | [] => 0
  | _ =>
      let x := siphash13 k0 k1 src in
      let x := if 2 ^ 63 <=? x then x - 2 ^ 64 else x in
      if x =? -1 then -2 else x
  end.

(** [lcg_urandom]: the bytes of the secret derived from a non-zero
    [PYTHONHASHSEED]. *)
Fixpoint lcg_urandom (x : Z) (size : nat) : list Z :=
  match size with
  | O => []
  | S size' =>
      let x := (x * 214013 + 2531011) mod 2 ^ 32 in
      Z.land (Z.shiftr x 16) 0xff :: lcg_urandom x size'
  end.

(** The SipHash key [(k0, k1)] of a process started with
    [PYTHONHASHSEED=seed]: the first sixteen bytes of the secret. *)
Definition secret_of_seed (seed : Z) : Z * Z :=
  if seed =? 0 then (0, 0)
  else
    let buffer := lcg_urandom seed 24 in
    (le64 (take 8 buffer), le64 (take 8 (drop 8 buffer))).

(** [hash(s)] in a process whose key is [secret]. *)
Definition hash (secret : Z * Z) (s : string) : Z :=
  hash_bytes (fst secret) (snd secret) (bytes_of s).
End PyHash.

(** ** Deletion *)

(** Modelled from the spec: the deletion of a contact, which no route of
    [main.py] performs; only the declaration
    [cascade="all, delete-orphan"] of [Contact.activities] is in the source.
    Following the specification ("delete-by-id-with-cascade": "delete
    children, then parent, in one atomic unit"), the activities of the
    contact are deleted, then the contact itself; a missing id is reported
    as not found and leaves the store as it is. *)
Definition delete_contact (contact_id : Z) (db : Store) : Store * option Contact.t :=
  match query_contact db contact_id with
  | None => (db, None)
  | Some contact =>
      (mkStore
         (filter (fun c => Contact.id c ≠ Contact.id contact) (contacts db))
         (filter (fun a => Activity.contact_id a ≠ Contact.id contact)
            (activities db)),
       Some contact)
  end.

(** ** Invariants, orderings and sample stores *)

(** Rowids increase along each table (so they are unique, and table order
    is insertion order), and every activity belongs to a contact of the
    store. *)
Record wf_store (db : Store) : Prop := mk_wf {
  wf_contact_ids : StronglySorted Z.lt (Contact.id <$> contacts db);
  wf_activity_ids : StronglySorted Z.lt (Activity.id <$> activities db);
  wf_no_orphans :
    ∀ a, a ∈ activities db →
      ∃ c, c ∈ contacts db ∧ Contact.id c = Activity.contact_id a
}.

(** The stores the application can be in: the empty database, changed by
    the seeding routine, by the handlers and by deletions. *)
Inductive reachable : Store → Prop :=
  | reach_empty : reachable empty_store
  | reach_seed hash utcnow db :
      reachable db → reachable (seed_data hash utcnow db)
  | reach_create now name email phone company status intel db :
      reachable db →
      reachable (create_contact now name email phone company status intel db).1
  | reach_update contact_id name email phone company status intel db :
      reachable db →
      reachable
        (update_contact contact_id name email phone company status intel db).1
  | reach_add_activity now contact_id description db :
      reachable db → reachable (add_activity now contact_id description db).1
  | reach_delete contact_id db :
      reachable db → reachable (delete_contact contact_id db).1.

(** A store with one contact (id 1) and one activity, used as a concrete
    input. *)
Definition sample_store : Store :=
  (add_activity 50 1 "Called, left voicemail"
     (create_contact 40 "Test User" "t@example.com" None (Some "Acme") "Lead"
        None empty_store).1).1.

(** The order of the contact list between an earlier and a later entry. *)
Definition newest_first (a b : Contact.t) : Prop :=
  Contact.created_at b ≤ Contact.created_at a.

(** The two orders by timestamp of an activity log. *)
Definition by_timestamp_asc (a b : Activity.t) : Prop :=
  Activity.timestamp a ≤ Activity.timestamp b.

Definition by_timestamp_desc (a b : Activity.t) : Prop :=
  Activity.timestamp b ≤ Activity.timestamp a.

(** Two contacts and five activities logged in turn for the one and the
    other, at clock readings that never decrease and are twice equal. *)
Definition interleaved_log_store : Store :=
  (add_activity 70 1 "fourth call"
     (add_activity 60 2 "other second"
        (add_activity 50 1 "third call"
           (add_activity 50 1 "second call"
              (add_activity 50 2 "other first"
                 (add_activity 45 1 "first call"
                    (create_contact 42 "Other User" "o@example.com" None None
                       "Contacted" None
                       (create_contact 40 "Test User" "t@example.com" None
                          (Some "Acme") "Lead" None
                          empty_store).1).1).1).1).1).1).1).1.

(** Three activities logged for contact 1 while the wall clock is set back
    between the first and the second call. *)
Definition clock_set_back_store : Store :=
  (add_activity 60 1 "third"
     (add_activity 45 1 "second"
        (add_activity 50 1 "first"
           (create_contact 40 "Test User" "t@example.com" None (Some "Acme")
              "Lead" None empty_store).1).1).1).1.

(** The timestamps of the activity table never decrease along the table:
    the case of a clock that was never set back between two inserts. *)
Definition timestamps_monotone (db : Store) : Prop :=
  StronglySorted Z.le (Activity.timestamp <$> activities db).

(** No activity refers to a contact that is not in the store. *)
Definition no_orphans (db : Store) : Prop :=
  ∀ a, a ∈ activities db →
    ∃ c, c ∈ contacts db ∧ Contact.id c = Activity.contact_id a.

(** The first entry of [initial_contacts]. *)
Definition alice : Fixture.t :=
  Fixture.mk "Alice Johnson" "alice@techcorp.com" "TechCorp" "Lead"
    "Expanding to Europe next Q.".

(** ** The intel report *)

(** The order of SQLite on the values of the [company] column: NULL sorts
    before every text, and two texts compare byte by byte (the BINARY
    collation), a proper prefix before its extensions. *)
Definition company_ltb (a b : option string) : bool :=
  match a, b with
  | None, None => false
  | None, Some _ => true
  | Some _, None => false
  | Some s, Some t =>
      match String.compare s t with
      | Lt => true
      | _ => false
      end
  end.

(** [ORDER BY company] (ascending) over the scan; rows with equal keys stay
    in scan order, as with [insert_desc]: a row is placed in front of every
    later row whose company is not strictly smaller. *)
Fixpoint insert_by_company (c : Contact.t) (sorted : list Contact.t)
    : list Contact.t :=
  match sorted with
  | [] => [c]
  | x :: rest =>
      if company_ltb (Contact.company x) (Contact.company c)
      then x :: insert_by_company c rest
      else c :: x :: rest
  end.

Definition order_by_company (rows : list Contact.t) : list Contact.t :=
  foldr insert_by_company [] rows.

(** [intel_view]: the [contacts] entry of the template context. *)
Definition intel_view (db : Store) : list Contact.t :=
  order_by_company (contacts db).

(** The order of the intel report between an earlier and a later entry. *)
Definition by_company (a b : Contact.t) : Prop :=
  company_ltb (Contact.company b) (Contact.company a) = false.

(** ** Steps of the application *)

(** One change of the store made by the code of [main.py]: the seeding at
    startup or one of the three writing handlers. *)
Inductive route_step : Store → Store → Prop :=
  | step_seed hash utcnow db :
      route_step db (seed_data hash utcnow db)
  | step_create now name email phone company status intel db :
      route_step db
        (create_contact now name email phone company status intel db).1
  | step_update contact_id name email phone company status intel db :
      route_step db
        (update_contact contact_id name email phone company status intel db).1
  | step_add_activity now contact_id description db :
      route_step db (add_activity now contact_id description db).1.

(** Every rowid of the store is at least 1. *)
Definition ids_positive (db : Store) : Prop :=
  Forall (fun i => 1 ≤ i) (Contact.id <$> contacts db)
  ∧ Forall (fun i => 1 ≤ i) (Activity.id <$> activities db).

(** What a writing step keeps of a contact: its id and creation
    timestamp. *)
Definition contact_key (c : Contact.t) : Z * Z :=
  (Contact.id c, Contact.created_at c).

(** The store [db'] continues [db]: the contacts of [db] are still the
    first rows of the contact table, with their ids and creation timestamps,
    and the activities of [db] are still, unchanged, the first rows of the
    activity table. *)
Definition history_kept (db db' : Store) : Prop :=
  contact_key <$> contacts db `prefix_of` contact_key <$> contacts db'
  ∧ activities db `prefix_of` activities db'.

(** * Properties *)

(** ** The kanban grouping *)

Lemma canonical_iff (k : string) :
  k ∈ canonical_statuses
  ↔ k = "Lead" ∨ k = "Contacted" ∨ k = "Proposal" ∨ k = "Closed".
Proof. unfold canonical_statuses. rewrite !elem_of_cons, elem_of_nil. tauto. Qed.

Lemma kanban_foldl_lookup (rows : list Contact.t)
    (grouped : gmap string (list Contact.t)) (k : string) :
  foldl kanban_step grouped rows !! k
  = (fun bucket => bucket ++ filter (fun c => Contact.status c = k) rows)
      <$> grouped !! k.
Proof.
  revert grouped. induction rows as [|c rows IH]; intros grouped; simpl.
  - destruct (grouped !! k); simpl; by rewrite ?app_nil_r.
  - rewrite IH. unfold kanban_step.
    destruct (grouped !! Contact.status c) as [bucket|] eqn:E;
      destruct (decide (Contact.status c = k)) as [Hk|Hk].
    + subst k. rewrite lookup_insert_eq, E. simpl.
      rewrite filter_cons_True by done. by rewrite <- app_assoc.
    + rewrite lookup_insert_ne by done. by rewrite filter_cons_False.
    + subst k. by rewrite E.
    + by rewrite filter_cons_False.
Qed.

Lemma grouped_init_lookup (k : string) :
  grouped_init !! k = if decide (k ∈ canonical_statuses) then Some [] else None.
Proof.
  unfold grouped_init. case_decide as Hk; rewrite canonical_iff in Hk.
  - destruct Hk as [-> | [-> | [-> | ->]]]; by simplify_map_eq.
  - rewrite !lookup_insert_ne, lookup_empty; [done|..]; intros <-; tauto.
Qed.

Lemma kanban_board_lookup (db : Store) (k : string) :
  kanban_board db !! k
  = if decide (k ∈ canonical_statuses)
    then Some (filter (fun c => Contact.status c = k) (contacts db))
    else None.
Proof.
  unfold kanban_board. rewrite kanban_foldl_lookup, grouped_init_lookup.
  by case_decide.
Qed.

Lemma kanban_board_explicit (db : Store) :
  let bucket k := filter (fun c => Contact.status c = k) (contacts db) in
  kanban_board db
  = <["Lead" := bucket "Lead"]> (<["Contacted" := bucket "Contacted"]>
      (<["Proposal" := bucket "Proposal"]> (<["Closed" := bucket "Closed"]> ∅))).
Proof.
  intros bucket. apply map_eq. intros k. rewrite kanban_board_lookup.
  case_decide as Hk; rewrite canonical_iff in Hk.
  - destruct Hk as [-> | [-> | [-> | ->]]]; by simplify_map_eq.
  - rewrite !lookup_insert_ne, lookup_empty; [done|..]; intros <-; tauto.
Qed.

Lemma canonical_count (rows : list Contact.t) :
  length (filter (fun c => Contact.status c ∈ canonical_statuses) rows)
  = (length (filter (fun c => Contact.status c = "Lead") rows)
     + (length (filter (fun c => Contact.status c = "Contacted") rows)
        + (length (filter (fun c => Contact.status c = "Proposal") rows)
           + (length (filter (fun c => Contact.status c = "Closed") rows) + 0))))%nat.
Proof.
  induction rows as [|c rows IH]; [done|].
  pose proof (canonical_iff (Contact.status c)) as Hcanon.
  rewrite !filter_cons.
  repeat case_decide; simpl; try lia; exfalso;
    try tauto; intuition congruence.
Qed.

(** C1. [kanban_board] returns a mapping whose keys are exactly the four
    canonical statuses; the bucket of a canonical status holds exactly the
    contacts of the scan with that status, in scan order; a contact with any
    other status is in no bucket; and the buckets together hold as many
    contacts as the store has contacts with a canonical status. *)
Theorem kanban_board_groups_by_status (db : Store) :
  dom (kanban_board db)
    = ({["Lead"; "Contacted"; "Proposal"; "Closed"]} : gset string)
  ∧ (∀ k, k ∈ canonical_statuses →
       kanban_board db !! k
       = Some (filter (fun c => Contact.status c = k) (contacts db)))
  ∧ (∀ c k bucket,
       Contact.status c ∉ canonical_statuses →
       kanban_board db !! k = Some bucket → c ∉ bucket)
  ∧ board_total (kanban_board db)
    = length (filter (fun c => Contact.status c ∈ canonical_statuses)
                (contacts db)).
Proof.
  split; [|split; [|split]].
  - apply set_eq. intros k. rewrite elem_of_dom, kanban_board_lookup.
    rewrite !elem_of_union, !elem_of_singleton.
    case_decide as Hk; rewrite canonical_iff in Hk.
    + split; [intros _; tauto|by eauto].
    + split; [by intros []|tauto].
  - intros k Hk. rewrite kanban_board_lookup. by rewrite decide_True.
  - intros c k bucket Hc. rewrite kanban_board_lookup.
    case_decide as Hk; [|done]. intros [= <-].
    rewrite list_elem_of_filter. intros [E _]. by rewrite E in Hc.
  - rewrite canonical_count, kanban_board_explicit. unfold board_total.
    rewrite !map_fold_insert_L, map_fold_empty; [done|..];
      try (intros; lia); by simplify_map_eq.
Qed.

(** ** Row identifiers and point lookups *)

Lemma foldr_max_ge (i : Z) (rest : list Z) :
  i ≤ foldr Z.max i rest ∧ ∀ j, j ∈ rest → j ≤ foldr Z.max i rest.
Proof.
  induction rest as [|x rest [IHi IHj]]; simpl.
  - split; [lia|]. intros j Hj. by apply elem_of_nil in Hj.
  - split; [lia|]. intros j [->|Hj]%elem_of_cons; [lia|].
    specialize (IHj j Hj). lia.
Qed.

Lemma next_rowid_fresh (ids : list Z) (i : Z) :
  i ∈ ids → i < next_rowid ids.
Proof.
  destruct ids as [|x rest]; [by intros ?%elem_of_nil|].
  unfold next_rowid. destruct (foldr_max_ge x rest) as [Hx Hrest].
  intros [->|Hi]%elem_of_cons; [lia|]. specialize (Hrest i Hi). lia.
Qed.

Lemma query_contact_Some (db : Store) (contact_id : Z) (c : Contact.t) :
  query_contact db contact_id = Some c →
  c ∈ contacts db ∧ Contact.id c = contact_id.
Proof.
  unfold query_contact. intros [Hin Heq]%find_some.
  split; [by apply list_elem_of_In|lia].
Qed.

Lemma query_contact_None (db : Store) (contact_id : Z) :
  query_contact db contact_id = None
  ↔ ∀ c, c ∈ contacts db → Contact.id c ≠ contact_id.
Proof.
  unfold query_contact. split.
  - intros Hnone c Hc%list_elem_of_In Heq.
    pose proof (find_none _ _ Hnone c Hc) as Hf. simpl in Hf. lia.
  - intros Hall. destruct (find _ _) as [c|] eqn:E; [|done].
    apply find_some in E as [Hin Heq]. apply list_elem_of_In in Hin.
    destruct (Hall c Hin). lia.
Qed.

Lemma find_app_fresh (rows : list Contact.t) (c : Contact.t) :
  (∀ x, x ∈ rows → Contact.id x ≠ Contact.id c) →
  find (fun x => Contact.id x =? Contact.id c) (rows ++ [c]) = Some c.
Proof.
  induction rows as [|x rows IH]; intros Hfresh; simpl.
  - by rewrite Z.eqb_refl.
  - destruct (Z.eqb_spec (Contact.id x) (Contact.id c)) as [E|_].
    + destruct (Hfresh x); [by left|done].
    + apply IH. intros y Hy. apply Hfresh. by right.
Qed.

(** ** The store invariant *)

Lemma StronglySorted_snoc_rowid (ids : list Z) :
  StronglySorted Z.lt ids → StronglySorted Z.lt (ids ++ [next_rowid ids]).
Proof.
  intros Hs. apply StronglySorted_app_2; [|done|repeat constructor].
  intros i j Hi ->%list_elem_of_singleton. by apply next_rowid_fresh.
Qed.

Lemma wf_empty_store : wf_store empty_store.
Proof.
  split; simpl; [constructor|constructor|]. by intros a ?%elem_of_nil.
Qed.

Lemma wf_insert_contact db name email phone company status intel created :
  wf_store db →
  wf_store (insert_contact db name email phone company status intel created).1.
Proof.
  intros [Hc Ha Ho]. split; simpl.
  - rewrite fmap_app. simpl. by apply StronglySorted_snoc_rowid.
  - done.
  - intros a [c [Hin E]]%Ho. exists c. split; [|done].
    apply elem_of_app. by left.
Qed.

Lemma wf_insert_activity db (c : Contact.t) description timestamp :
  wf_store db → c ∈ contacts db →
  wf_store (insert_activity db (Contact.id c) description timestamp).1.
Proof.
  intros [Hc Ha Ho] Hin. split; simpl.
  - done.
  - rewrite fmap_app. simpl. by apply StronglySorted_snoc_rowid.
  - intros a [Hold| ->%list_elem_of_singleton]%elem_of_app; [by apply Ho|].
    by exists c.
Qed.

Lemma StronglySorted_fmap_filter {A : Type} (f : A → Z) (P : A → Prop)
    `{!∀ x, Decision (P x)} (rows : list A) :
  StronglySorted Z.lt (f <$> rows) →
  StronglySorted Z.lt (f <$> filter P rows).
Proof.
  induction rows as [|x rows IH]; simpl; [done|].
  intros Hs. apply StronglySorted_inv in Hs as [Hrest Hx].
  rewrite filter_cons. case_decide; [|by apply IH].
  rewrite fmap_cons. constructor; [by apply IH|].
  apply Forall_forall. intros i [y [-> Hy]]%list_elem_of_fmap.
  apply list_elem_of_filter in Hy as [_ Hy].
  rewrite Forall_forall in Hx. apply Hx. by apply list_elem_of_fmap_2.
Qed.

Lemma update_row_id contact_id name email phone company status intel c :
  Contact.id (update_row contact_id name email phone company status intel c)
  = Contact.id c.
Proof. unfold update_row. by destruct (_ =? _). Qed.

Lemma wf_create_contact now name email phone company status intel db :
  wf_store db →
  wf_store (create_contact now name email phone company status intel db).1.
Proof. apply wf_insert_contact. Qed.

Lemma wf_add_activity now contact_id description db :
  wf_store db → wf_store (add_activity now contact_id description db).1.
Proof.
  intros Hwf. unfold add_activity.
  destruct (query_contact db contact_id) as [c|] eqn:E; [|done].
  apply query_contact_Some in E as [Hin _]. by apply wf_insert_activity.
Qed.

Lemma wf_update_contact contact_id name email phone company status intel db :
  wf_store db →
  wf_store (update_contact contact_id name email phone company status intel db).1.
Proof.
  intros [Hc Ha Ho]. unfold update_contact.
  destruct (query_contact db contact_id) as [old|]; [|done].
  assert (Hids : ∀ rows : list Contact.t,
            Contact.id <$> (update_row (Contact.id old) name email phone
                              company status intel <$> rows)
            = Contact.id <$> rows).
  { intros rows. rewrite <- list_fmap_compose. apply list_fmap_ext.
    intros _ c _. apply update_row_id. }
  split; simpl; [by rewrite Hids|done|].
  intros a [c [Hin E]]%Ho.
  exists (update_row (Contact.id old) name email phone company status intel c).
  split; [by apply list_elem_of_fmap_2|by rewrite update_row_id].
Qed.

Lemma wf_delete_contact contact_id db :
  wf_store db → wf_store (delete_contact contact_id db).1.
Proof.
  intros [Hc Ha Ho]. unfold delete_contact.
  destruct (query_contact db contact_id) as [old|]; [|done].
  split; simpl; [by apply StronglySorted_fmap_filter..|].
  intros a [Hne [c [Hin E]]%Ho]%list_elem_of_filter.
  exists c. split; [|done]. apply list_elem_of_filter. split; [congruence|done].
Qed.

Lemma wf_seed_one hash utcnow db k data :
  wf_store db → wf_store (seed_one hash utcnow (db, k) data).1.
Proof.
  intros Hwf. unfold seed_one.
  destruct (insert_contact _ _ _ _ _ _ _ _) as [db1 c] eqn:E1.
  destruct (insert_activity _ _ _ _) as [db2 a] eqn:E2. simpl.
  assert (db2 = (insert_activity db1 (Contact.id c)
                   (initial_activity_description (Fixture.status data))
                   (utcnow (S k))).1) as -> by by rewrite E2.
  injection E1 as <- <-.
  apply wf_insert_activity; [by apply wf_insert_contact|].
  simpl. apply elem_of_app. right. by apply list_elem_of_singleton.
Qed.

Lemma wf_seed_data hash utcnow db :
  wf_store db → wf_store (seed_data hash utcnow db).
Proof.
  intros Hwf. unfold seed_data, first_contact.
  destruct (head (contacts db)); [done|].
  generalize 0%nat. revert db Hwf.
  induction initial_contacts as [|data rest IH]; intros db Hwf k; [done|].
  change (wf_store (foldl (seed_one hash utcnow)
                      (seed_one hash utcnow (db, k) data) rest).1).
  pose proof (wf_seed_one hash utcnow db k data Hwf) as Hone.
  destruct (seed_one hash utcnow (db, k) data) as [db' k']. by apply IH.
Qed.

Create HintDb store.
#[local] Hint Resolve wf_empty_store wf_seed_data wf_create_contact
  wf_update_contact wf_add_activity wf_delete_contact : store.

Lemma reachable_wf (db : Store) : reachable db → wf_store db.
Proof. induction 1; auto with store. Qed.

(** ** Seeding *)

Lemma seed_one_contacts hash utcnow db k data :
  length (contacts (seed_one hash utcnow (db, k) data).1)
  = S (length (contacts db)).
Proof. simpl. rewrite length_app. simpl. lia. Qed.

Lemma seed_fold_contacts hash utcnow (fixtures : list Fixture.t) db k :
  length (contacts (foldl (seed_one hash utcnow) (db, k) fixtures).1)
  = (length (contacts db) + length fixtures)%nat.
Proof.
  revert db k. induction fixtures as [|data rest IH]; intros db k.
  - simpl. lia.
  - change (foldl (seed_one hash utcnow) (db, k) (data :: rest))
      with (foldl (seed_one hash utcnow)
              (seed_one hash utcnow (db, k) data) rest).
    pose proof (seed_one_contacts hash utcnow db k data) as Hone.
    destruct (seed_one hash utcnow (db, k) data) as [db' k'].
    rewrite IH. simpl in *. lia.
Qed.

Lemma seed_data_nonempty hash utcnow db :
  contacts db ≠ [] → seed_data hash utcnow db = db.
Proof. unfold seed_data, first_contact. by destruct (contacts db). Qed.

Lemma seed_data_empty_length hash utcnow db :
  contacts db = [] → length (contacts (seed_data hash utcnow db)) = 10%nat.
Proof.
  intros Hempty. unfold seed_data, first_contact. rewrite Hempty.
  cbn [head]. rewrite seed_fold_contacts, Hempty. reflexivity.
Qed.

(** C2. [seed_data] does nothing when a contact exists; run on a store
    without contacts it leaves the ten fixture contacts, and a second run
    (whatever the clock and the hash function of the second run) returns
    that store unchanged: ten contacts, not twenty. *)
Theorem seed_data_idempotent (hash1 hash2 : string → Z)
    (utcnow1 utcnow2 : nat → Z) (db : Store) :
  contacts db = [] →
  length (contacts (seed_data hash1 utcnow1 db)) = 10%nat
  ∧ seed_data hash2 utcnow2 (seed_data hash1 utcnow1 db)
    = seed_data hash1 utcnow1 db
  ∧ length (contacts (seed_data hash2 utcnow2 (seed_data hash1 utcnow1 db)))
    = 10%nat
  ∧ ∀ db', contacts db' ≠ [] → seed_data hash2 utcnow2 db' = db'.
Proof.
  intros Hempty.
  pose proof (seed_data_empty_length hash1 utcnow1 db Hempty) as Hten.
  assert (Hagain : seed_data hash2 utcnow2 (seed_data hash1 utcnow1 db)
                   = seed_data hash1 utcnow1 db).
  { apply seed_data_nonempty. intros Hnil. by rewrite Hnil in Hten. }
  split; [done|]. split; [done|]. split; [by rewrite Hagain|].
  intros db'. apply seed_data_nonempty.
Qed.

Lemma seed_data_idempotent_witness :
  contacts empty_store = []
  ∧ length (contacts
      (seed_data (PyHash.hash (0, 0)) (fun k => 1700000000000000 + Z.of_nat k)
         (seed_data (PyHash.hash (0, 0)) (fun k => 1600000000000000 + Z.of_nat k)
            empty_store))) = 10%nat.
Proof.
  split; [reflexivity|].
  apply (seed_data_idempotent (PyHash.hash (0, 0)) (PyHash.hash (0, 0))
           (fun k => 1600000000000000 + Z.of_nat k)
           (fun k => 1700000000000000 + Z.of_nat k) empty_store).
  reflexivity.
Defined.

(** ** Activities *)

Lemma sqlite_integer_spec (i : Z) :
  sqlite_integer i = true ↔ - 2 ^ 63 ≤ i < 2 ^ 63.
Proof.
  unfold sqlite_integer. rewrite andb_true_iff, Z.leb_le, Z.ltb_lt. tauto.
Qed.

Lemma no_contact_cases {A : Type} (contact_id : Z) :
  (- 2 ^ 63 ≤ contact_id < 2 ^ 63 →
   @no_contact A contact_id = HTTPException 404 "Contact not found")
  ∧ (¬ (- 2 ^ 63 ≤ contact_id < 2 ^ 63) →
     @no_contact A contact_id = OverflowError).
Proof.
  unfold no_contact. rewrite <- sqlite_integer_spec.
  destruct (sqlite_integer contact_id); split; congruence.
Qed.

(** In a table of rowids, which the driver can bind, an id that the driver
    cannot bind is the id of no row. *)
Lemma query_contact_unbound (db : Store) (contact_id : Z) :
  Forall (fun i => sqlite_integer i = true) (Contact.id <$> contacts db) →
  sqlite_integer contact_id = false →
  query_contact db contact_id = None.
Proof.
  intros Hrows Hunbound. apply query_contact_None. intros c Hc Heq.
  rewrite Forall_forall in Hrows.
  specialize (Hrows _ (list_elem_of_fmap_2 Contact.id _ _ Hc)). congruence.
Qed.

Lemma no_contact_not_template {A : Type} (contact_id : Z) (context : A) :
  no_contact contact_id ≠ TemplateResponse context.
Proof. unfold no_contact. by destruct (sqlite_integer contact_id). Qed.




(** ** Creating, reading and updating contacts *)

Lemma find_fmap_update_row contact_id name email phone company status intel
    (rows : list Contact.t) :
  find (fun c => Contact.id c =? contact_id)
    (update_row contact_id name email phone company status intel <$> rows)
  = update_row contact_id name email phone company status intel
      <$> find (fun c => Contact.id c =? contact_id) rows.
Proof.
  induction rows as [|x rows IH]; [done|].
  rewrite fmap_cons. simpl. rewrite update_row_id.
  by destruct (Contact.id x =? contact_id).
Qed.

(** C5. When [contact_id] is the id of a stored contact [old],
    [update_contact] redirects to the contact's page, and the detail view of
    [contact_id] afterwards shows the six submitted values (an omitted
    optional field, [None], is stored as such) under the id and the creation
    timestamp that [old] had.  Every other row of either table is left as it
    was. *)
Theorem update_contact_full_replace (contact_id : Z)
    (name email : string) (phone company : option string) (status : string)
    (competitive_intel : option string) (db : Store) (old : Contact.t) :
  edit_contact contact_id db = TemplateResponse old →
  let result :=
    update_contact contact_id name email phone company status
      competitive_intel db in
  result.2 = RedirectResponse (contact_url contact_id)
  ∧ edit_contact contact_id result.1
    = TemplateResponse
        (Contact.mk (Contact.id old) name email phone company status
           competitive_intel (Contact.created_at old))
  ∧ activities result.1 = activities db
  ∧ length (contacts result.1) = length (contacts db)
  ∧ ∀ i c, Contact.id c ≠ contact_id →
      contacts db !! i = Some c → contacts result.1 !! i = Some c.
Proof.
  unfold edit_contact.
  destruct (query_contact db contact_id) as [c0|] eqn:Hq;
    [|by intros ?%no_contact_not_template].
  intros [= ->]. pose proof (query_contact_Some _ _ _ Hq) as [_ Hid].
  unfold update_contact. rewrite Hq. simpl. rewrite Hid.
  split; [done|]. split; [|split; [done|split]].
  - unfold query_contact in *. simpl.
    rewrite find_fmap_update_row, Hq. simpl. unfold update_row.
    by rewrite Hid, Z.eqb_refl.
  - by rewrite length_fmap.
  - intros i c Hne Hi. rewrite list_lookup_fmap, Hi. simpl.
    unfold update_row. by destruct (Z.eqb_spec (Contact.id c) contact_id).
Qed.

Lemma update_contact_full_replace_witness :
  edit_contact 1 sample_store
    = TemplateResponse
        (Contact.mk 1 "Test User" "t@example.com" None (Some "Acme") "Lead"
           None 40)
  ∧ edit_contact 1
      (update_contact 1 "New Name" "n@example.com" (Some "555-0199") None
         "Closed" None sample_store).1
    = TemplateResponse
        (Contact.mk 1 "New Name" "n@example.com" (Some "555-0199") None
           "Closed" None 40).
Proof.
  split; [reflexivity|].
  apply (update_contact_full_replace 1 "New Name" "n@example.com"
           (Some "555-0199") None "Closed" None sample_store
           (Contact.mk 1 "Test User" "t@example.com" None (Some "Acme") "Lead"
              None 40)).
  reflexivity.
Defined.

Lemma edit_contact_after_insert db name email phone company status intel now :
  edit_contact (next_rowid (Contact.id <$> contacts db))
    (insert_contact db name email phone company status intel now).1
  = TemplateResponse
      (Contact.mk (next_rowid (Contact.id <$> contacts db)) name email phone
         company status intel now)
  ∧ ∀ c, c ∈ contacts db →
      Contact.id c ≠ next_rowid (Contact.id <$> contacts db).
Proof.
  assert (Hfresh : ∀ c, c ∈ contacts db →
            Contact.id c ≠ next_rowid (Contact.id <$> contacts db)).
  { intros c Hc.
    pose proof (next_rowid_fresh (Contact.id <$> contacts db) (Contact.id c)
                  (list_elem_of_fmap_2 _ _ _ Hc)). lia. }
  split; [|done].
  pose proof (find_app_fresh (contacts db)
                (Contact.mk (next_rowid (Contact.id <$> contacts db)) name
                   email phone company status intel now) Hfresh)
    as Hfind.
  unfold edit_contact, query_contact. simpl in *. by rewrite Hfind.
Qed.

(** C6. [create_contact] appends one row that carries the submitted values,
    the next rowid of the table as id (an id no stored contact has) and the
    clock reading as creation timestamp; the detail view of that id,
    requested right after, returns exactly this row. *)
Theorem create_contact_then_get (now : Z)
    (name email : string) (phone company : option string) (status : string)
    (competitive_intel : option string) (db : Store) :
  let result :=
    create_contact now name email phone company status competitive_intel db in
  let new_id := next_rowid (Contact.id <$> contacts db) in
  let stored :=
    Contact.mk new_id name email phone company status competitive_intel now in
  result.2 = RedirectResponse "/contacts"
  ∧ (∀ c, c ∈ contacts db → Contact.id c ≠ new_id)
  ∧ contacts result.1 = contacts db ++ [stored]
  ∧ activities result.1 = activities db
  ∧ edit_contact new_id result.1 = TemplateResponse stored.
Proof.
  destruct (edit_contact_after_insert db name email phone company status
              competitive_intel now) as [Hget Hfresh].
  cbv zeta. by repeat split.
Qed.

(** ** The contact list *)

Lemma insert_desc_perm (c : Contact.t) (sorted : list Contact.t) :
  insert_desc c sorted ≡ₚ c :: sorted.
Proof.
  induction sorted as [|x rest IH]; simpl; [done|].
  destruct (_ <? _); [|done]. rewrite IH. apply Permutation_swap.
Qed.

Lemma order_by_created_at_desc_perm (rows : list Contact.t) :
  order_by_created_at_desc rows ≡ₚ rows.
Proof.
  induction rows as [|c rows IH]; simpl; [done|].
  by rewrite insert_desc_perm, IH.
Qed.

Lemma insert_desc_sorted (c : Contact.t) (sorted : list Contact.t) :
  StronglySorted newest_first sorted →
  StronglySorted newest_first (insert_desc c sorted).
Proof.
  induction sorted as [|x rest IH]; simpl; intros Hs.
  - repeat constructor.
  - apply StronglySorted_inv in Hs as [Hrest Hx].
    destruct (Z.ltb_spec (Contact.created_at c) (Contact.created_at x)).
    + constructor; [by apply IH|].
      rewrite insert_desc_perm. constructor; [|done].
      unfold newest_first. lia.
    + constructor; [by constructor|]. constructor; [done|].
      eapply Forall_impl; [exact Hx|]. unfold newest_first. intros; simpl in *; lia.
Qed.

Lemma order_by_created_at_desc_sorted (rows : list Contact.t) :
  StronglySorted newest_first (order_by_created_at_desc rows).
Proof.
  induction rows as [|c rows IH]; simpl; [constructor|].
  by apply insert_desc_sorted.
Qed.

Lemma insert_desc_ties (t : Z) (c : Contact.t) (sorted : list Contact.t) :
  filter (fun x => Contact.created_at x = t) (insert_desc c sorted)
  = filter (fun x => Contact.created_at x = t) (c :: sorted).
Proof.
  induction sorted as [|x rest IH]; simpl; [done|].
  destruct (Z.ltb_spec (Contact.created_at c) (Contact.created_at x)); [|done].
  rewrite (filter_cons _ x), IH, !filter_cons.
  repeat case_decide; try done; lia.
Qed.

Lemma order_by_created_at_desc_ties (t : Z) (rows : list Contact.t) :
  filter (fun x => Contact.created_at x = t) (order_by_created_at_desc rows)
  = filter (fun x => Contact.created_at x = t) rows.
Proof.
  induction rows as [|c rows IH]; simpl; [done|].
  by rewrite insert_desc_ties, !filter_cons, IH.
Qed.

(** C7. [list_contacts] returns every contact of the store, each once,
    ordered by creation timestamp from the newest to the oldest; the
    contacts that share a creation timestamp come in the order of the table,
    which is the order of their insertion. *)
Theorem list_contacts_newest_first_stable (db : Store) :
  list_contacts db ≡ₚ contacts db
  ∧ StronglySorted newest_first (list_contacts db)
  ∧ ∀ t, filter (fun c => Contact.created_at c = t) (list_contacts db)
         = filter (fun c => Contact.created_at c = t) (contacts db).
Proof.
  unfold list_contacts. split; [|split].
  - apply order_by_created_at_desc_perm.
  - apply order_by_created_at_desc_sorted.
  - intros t. apply order_by_created_at_desc_ties.
Qed.

(** In a store that satisfies the invariant, contacts with equal creation
    timestamps are listed by ascending id. *)
Lemma list_contacts_ties_by_id (db : Store) (t : Z) :
  wf_store db →
  StronglySorted Z.lt
    (Contact.id <$> filter (fun c => Contact.created_at c = t) (list_contacts db)).
Proof.
  intros [Hc _ _]. unfold list_contacts.
  rewrite order_by_created_at_desc_ties. by apply StronglySorted_fmap_filter.
Qed.

Example list_contacts_ties_example :
  let db :=
    (create_contact 7 "C" "c@x" None None "Lead" None
       (create_contact 9 "B" "b@x" None None "Lead" None
          (create_contact 7 "A" "a@x" None None "Lead" None empty_store).1).1).1 in
  Contact.name <$> list_contacts db = ["B"; "A"; "C"].
Proof. reflexivity. Qed.

(** ** The activities of a contact *)

Lemma StronglySorted_fmap_Z {A : Type} (R : A → A → Prop) (f : A → Z)
    (rel : Z → Z → Prop) (rows : list A) :
  (∀ a b, R a b ↔ rel (f a) (f b)) →
  StronglySorted R rows ↔ StronglySorted rel (f <$> rows).
Proof.
  intros HR. induction rows as [|x rows IH]; simpl.
  - split; constructor.
  - split; intros [Hrest Hx]%StronglySorted_inv; constructor;
      try (by apply IH).
    + apply Forall_fmap. eapply Forall_impl; [exact Hx|].
      intros y Hy. by apply HR.
    + rewrite Forall_fmap in Hx. eapply Forall_impl; [exact Hx|].
      intros y Hy. by apply HR.
Qed.

(** C8, as stated, fails: the detail view of contact 1 in
    [clock_set_back_store] shows its activities with the timestamps 50, 45,
    60, which is neither ascending nor descending. *)
Lemma contact_activities_not_by_timestamp :
  ∃ c, edit_contact 1 clock_set_back_store = TemplateResponse c
       ∧ Activity.timestamp <$> contact_activities clock_set_back_store c
         = [50; 45; 60]
       ∧ ¬ StronglySorted by_timestamp_asc
             (contact_activities clock_set_back_store c)
       ∧ ¬ StronglySorted by_timestamp_desc
             (contact_activities clock_set_back_store c).
Proof.
  eexists. split; [reflexivity|]. split; [reflexivity|].
  split; intros Hs.
  - apply (StronglySorted_fmap_Z _ Activity.timestamp Z.le) in Hs; [|done].
    change (StronglySorted Z.le [50; 45; 60]) in Hs.
    apply StronglySorted_inv in Hs as [_ Hx].
    apply Forall_cons in Hx as [Hx _]. lia.
  - apply (StronglySorted_fmap_Z _ Activity.timestamp Z.ge) in Hs;
      [|unfold by_timestamp_desc; intros; lia].
    change (StronglySorted Z.ge [50; 45; 60]) in Hs.
    apply StronglySorted_inv in Hs as [Hrest _].
    apply StronglySorted_inv in Hrest as [_ Hx].
    apply Forall_cons in Hx as [Hx _]. lia.
Qed.

Lemma contact_activities_elem_of (db : Store) (c : Contact.t) (a : Activity.t) :
  a ∈ contact_activities db c
  ↔ a ∈ activities db ∧ Activity.contact_id a = Contact.id c.
Proof. unfold contact_activities. rewrite list_elem_of_filter. tauto. Qed.

Lemma StronglySorted_le_fmap_filter {A : Type} (f : A → Z) (P : A → Prop)
    `{!∀ x, Decision (P x)} (rows : list A) :
  StronglySorted Z.le (f <$> rows) →
  StronglySorted Z.le (f <$> filter P rows).
Proof.
  induction rows as [|x rows IH]; simpl; [done|].
  intros Hs. apply StronglySorted_inv in Hs as [Hrest Hx].
  rewrite filter_cons. case_decide; [|by apply IH].
  rewrite fmap_cons. constructor; [by apply IH|].
  apply Forall_forall. intros i [y [-> Hy]]%list_elem_of_fmap.
  apply list_elem_of_filter in Hy as [_ Hy].
  rewrite Forall_forall in Hx. apply Hx. by apply list_elem_of_fmap_2.
Qed.

Lemma add_activity_timestamps_monotone now contact_id description db :
  timestamps_monotone db →
  (∀ a, a ∈ activities db → Activity.timestamp a ≤ now) →
  timestamps_monotone (add_activity now contact_id description db).1.
Proof.
  unfold timestamps_monotone, add_activity. intros Hs Hnow.
  destruct (query_contact db contact_id); [|done]. simpl.
  rewrite fmap_app. apply StronglySorted_app_2; [|done|repeat constructor].
  intros t1 t2 [a [-> Ha]]%list_elem_of_fmap ->%list_elem_of_singleton.
  simpl. by apply Hnow.
Qed.

(** C8, amended. The detail view exposes exactly the activities of the
    contact, in the order of the activity table, that is by ascending id,
    the order in which they were added.  When timestamps never decrease
    along the table this is also the order of their timestamps, activities
    with equal timestamps staying in insertion order. *)
Theorem contact_activities_insertion_order (db : Store) (contact_id : Z)
    (c : Contact.t) :
  wf_store db →
  edit_contact contact_id db = TemplateResponse c →
  (∀ a, a ∈ contact_activities db c
        ↔ a ∈ activities db ∧ Activity.contact_id a = contact_id)
  ∧ contact_activities db c `sublist_of` activities db
  ∧ StronglySorted Z.lt (Activity.id <$> contact_activities db c)
  ∧ (timestamps_monotone db →
     StronglySorted by_timestamp_asc (contact_activities db c)).
Proof.
  intros [_ Ha _]. unfold edit_contact.
  destruct (query_contact db contact_id) as [c0|] eqn:Hq;
    [|by intros ?%no_contact_not_template].
  intros [= ->]. apply query_contact_Some in Hq as [_ Hid].
  split; [|split; [|split]].
  - intros a. by rewrite contact_activities_elem_of, Hid.
  - apply sublist_filter.
  - by apply StronglySorted_fmap_filter.
  - intros Hmono.
    apply (StronglySorted_fmap_Z _ Activity.timestamp Z.le); [done|].
    by apply StronglySorted_le_fmap_filter.
Qed.

Lemma contact_activities_insertion_order_witness :
  wf_store interleaved_log_store
  ∧ timestamps_monotone interleaved_log_store
  ∧ ∃ c, edit_contact 1 interleaved_log_store = TemplateResponse c
         ∧ length (activities interleaved_log_store) = 6%nat
         ∧ Activity.description
             <$> contact_activities interleaved_log_store c
           = ["first call"; "second call"; "third call"; "fourth call"]
         ∧ Activity.timestamp <$> contact_activities interleaved_log_store c
           = [45; 50; 50; 70]
         ∧ StronglySorted Z.lt
             (Activity.id <$> contact_activities interleaved_log_store c)
         ∧ StronglySorted by_timestamp_asc
             (contact_activities interleaved_log_store c).
Proof.
  assert (Hwf : wf_store interleaved_log_store).
  { unfold interleaved_log_store. auto 10 with store. }
  assert (Hmono : timestamps_monotone interleaved_log_store).
  { unfold timestamps_monotone.
    change (StronglySorted Z.le [45; 50; 50; 50; 60; 70]).
    repeat constructor; lia. }
  split; [exact Hwf|]. split; [exact Hmono|].
  eexists. split; [reflexivity|]. split; [reflexivity|].
  split; [reflexivity|]. split; [reflexivity|].
  pose proof (contact_activities_insertion_order interleaved_log_store 1 _
                Hwf eq_refl) as (_ & _ & Hids & Hsorted).
  split; [exact Hids|exact (Hsorted Hmono)].
Defined.

(** ** Deleting a contact *)

Lemma reachable_no_orphans (db : Store) : reachable db → no_orphans db.
Proof. intros Hr. by destruct (reachable_wf db Hr). Qed.

Lemma query_contact_of_elem (db : Store) (c : Contact.t) :
  c ∈ contacts db →
  ∃ c0, query_contact db (Contact.id c) = Some c0
        ∧ Contact.id c0 = Contact.id c.
Proof.
  intros Hin. destruct (query_contact db (Contact.id c)) as [c0|] eqn:Hq.
  - exists c0. split; [done|]. by apply query_contact_Some in Hq as [_ ?].
  - destruct (proj1 (query_contact_None db (Contact.id c)) Hq c Hin). done.
Qed.

(** C3. In a store without orphaned activities, deleting a stored contact
    removes the contact and every activity whose [contact_id] is the
    contact's id, keeps every other row, and leaves a store in which again no
    activity is orphaned. *)
Theorem delete_contact_cascades (db : Store) (c : Contact.t) :
  no_orphans db →
  c ∈ contacts db →
  let db' := (delete_contact (Contact.id c) db).1 in
  (∀ a, a ∈ activities db' → Activity.contact_id a ≠ Contact.id c)
  ∧ (∀ a, a ∈ activities db'
          ↔ a ∈ activities db ∧ Activity.contact_id a ≠ Contact.id c)
  ∧ (∀ x, x ∈ contacts db'
          ↔ x ∈ contacts db ∧ Contact.id x ≠ Contact.id c)
  ∧ no_orphans db'.
Proof.
  intros Horph Hin. destruct (query_contact_of_elem db c Hin) as [c0 [Hq Hid]].
  unfold delete_contact. rewrite Hq. simpl. rewrite Hid.
  assert (Hacts : ∀ a,
            a ∈ filter (fun a => Activity.contact_id a ≠ Contact.id c)
                  (activities db)
            ↔ a ∈ activities db ∧ Activity.contact_id a ≠ Contact.id c).
  { intros a. rewrite list_elem_of_filter. tauto. }
  assert (Hcts : ∀ x,
            x ∈ filter (fun x => Contact.id x ≠ Contact.id c) (contacts db)
            ↔ x ∈ contacts db ∧ Contact.id x ≠ Contact.id c).
  { intros x. rewrite list_elem_of_filter. tauto. }
  split; [|split; [done|split; [done|]]].
  - intros a Ha. by apply Hacts in Ha as [_ ?].
  - intros a Ha. simpl in *. apply Hacts in Ha as [Ha Hne].
    destruct (Horph a Ha) as [c' [Hc' E]]. exists c'. split; [|done].
    apply Hcts. split; [done|congruence].
Qed.

Lemma delete_contact_cascades_witness :
  no_orphans sample_store
  ∧ Contact.mk 1 "Test User" "t@example.com" None (Some "Acme") "Lead" None 40
      ∈ contacts sample_store
  ∧ (∀ a, a ∈ activities (delete_contact 1 sample_store).1 →
          Activity.contact_id a ≠ 1)
  ∧ no_orphans (delete_contact 1 sample_store).1.
Proof.
  assert (Horph : no_orphans sample_store).
  { apply reachable_no_orphans. repeat constructor. }
  assert (Hin : Contact.mk 1 "Test User" "t@example.com" None (Some "Acme")
                  "Lead" None 40 ∈ contacts sample_store).
  { vm_compute. apply list_elem_of_here. }
  split; [exact Horph|]. split; [exact Hin|].
  pose proof (delete_contact_cascades sample_store _ Horph Hin) as Hdel.
  split; [exact (proj1 Hdel)|exact (proj2 (proj2 (proj2 Hdel)))].
Defined.

(** ** The backdated creation timestamps of the fixtures *)

(** Values of the interpreter's [hash] under [PYTHONHASHSEED=0], [=1] and
    [=12345]. *)
Example hash_alice_seed_0 :
  PyHash.hash (PyHash.secret_of_seed 0) "Alice Johnson" = 5432830129446773025.
Proof. vm_compute. reflexivity. Qed.

Example hash_alice_seed_1 :
  PyHash.hash (PyHash.secret_of_seed 1) "Alice Johnson" = 6929964188946807128.
Proof. vm_compute. reflexivity. Qed.

Example hash_alice_seed_12345 :
  PyHash.hash (PyHash.secret_of_seed 12345) "Alice Johnson"
  = -1588997819156925558.
Proof. vm_compute. reflexivity. Qed.

Lemma backdate_days_mod (h : Z) : backdate_days h = h mod 10 + 1.
Proof.
  unfold backdate_days. pose proof (Z.mod_pos_bound h 10 eq_refl) as Hk.
  remember (h mod 10) as k eqn:E. clear E.
  assert (Hcases : k = 0 ∨ k = 1 ∨ k = 2 ∨ k = 3 ∨ k = 4 ∨ k = 5 ∨ k = 6
                   ∨ k = 7 ∨ k = 8 ∨ k = 9) by lia.
  repeat (destruct Hcases as [->|Hcases]; [reflexivity|]).
  by subst k.
Qed.

Lemma backdate_days_range (h : Z) : 1 ≤ backdate_days h ≤ 10.
Proof.
  rewrite backdate_days_mod. pose proof (Z.mod_pos_bound h 10 eq_refl). lia.
Qed.

(** C9, as stated, fails: the interpreter started with [PYTHONHASHSEED=0]
    and the one started with [PYTHONHASHSEED=1] seed "Alice Johnson", at the
    same clock reading, six days and nine days in the past. *)
Lemma seed_created_at_differs_between_processes :
  let now := 1700000000000000 in
  let hash0 := PyHash.hash (PyHash.secret_of_seed 0) in
  let hash1 := PyHash.hash (PyHash.secret_of_seed 1) in
  alice ∈ initial_contacts
  ∧ seed_created_at hash0 now alice = now - timedelta_days 6
  ∧ seed_created_at hash1 now alice = now - timedelta_days 9
  ∧ seed_created_at hash0 now alice ≠ seed_created_at hash1 now alice
  ∧ Contact.created_at
      <$> head (contacts (seed_data hash0 (fun _ => now) empty_store))
    ≠ Contact.created_at
      <$> head (contacts (seed_data hash1 (fun _ => now) empty_store)).
Proof.
  cbv zeta. split; [apply list_elem_of_here|].
  split; [by vm_compute|]. split; [by vm_compute|].
  split; by vm_compute.
Qed.

(** C9, amended. Within one interpreter process (one [hash] function) the
    creation timestamp given to a seeded contact is determined by the
    fixture's name and the clock reading alone, whatever the store, the
    other fields of the fixture and the number of earlier clock readings;
    it lies a whole number of days, at least one and at most ten, before the
    clock reading. *)
Theorem seed_backdating_per_process (hash : string → Z)
    (utcnow1 utcnow2 : nat → Z) (db1 db2 : Store) (k1 k2 : nat)
    (data1 data2 : Fixture.t) :
  Fixture.name data1 = Fixture.name data2 →
  utcnow1 k1 = utcnow2 k2 →
  ∃ c1 c2 days,
    last (contacts (seed_one hash utcnow1 (db1, k1) data1).1) = Some c1
    ∧ last (contacts (seed_one hash utcnow2 (db2, k2) data2).1) = Some c2
    ∧ Contact.name c1 = Contact.name c2
    ∧ Contact.created_at c1 = Contact.created_at c2
    ∧ 1 ≤ days ≤ 10
    ∧ Contact.created_at c1 = utcnow1 k1 - days * 86400000000.
Proof.
  intros Hname Hnow. simpl. rewrite !last_snoc.
  eexists _, _, (backdate_days (hash (Fixture.name data1))).
  split; [reflexivity|]. split; [reflexivity|]. simpl.
  split; [done|]. unfold seed_created_at. rewrite Hname, Hnow.
  split; [done|]. split; [|done]. apply backdate_days_range.
Qed.

Lemma seed_backdating_per_process_witness :
  let hash0 := PyHash.hash (PyHash.secret_of_seed 0) in
  Fixture.name alice
    = Fixture.name (Fixture.mk "Alice Johnson" "a@other.org" "Other" "Closed" "none")
  ∧ ∃ c1 c2 days,
      last (contacts (seed_one hash0 (fun _ => 1700000000000000)
                        (empty_store, 0%nat) alice).1) = Some c1
      ∧ last (contacts (seed_one hash0 (fun _ => 1700000000000000)
                          (sample_store, 4%nat)
                          (Fixture.mk "Alice Johnson" "a@other.org" "Other"
                             "Closed" "none")).1) = Some c2
      ∧ Contact.name c1 = Contact.name c2
      ∧ Contact.created_at c1 = Contact.created_at c2
      ∧ 1 ≤ days ≤ 10
      ∧ Contact.created_at c1 = 1700000000000000 - days * 86400000000.
Proof.
  split; [reflexivity|].
  apply (seed_backdating_per_process (PyHash.hash (PyHash.secret_of_seed 0))
           (fun _ => 1700000000000000) (fun _ => 1700000000000000)
           empty_store sample_store 0%nat 4%nat alice
           (Fixture.mk "Alice Johnson" "a@other.org" "Other" "Closed" "none"));
    reflexivity.
Defined.


(** * Further properties of the handlers *)

(** ** Point lookups *)

Lemma find_unique_id (rows : list Contact.t) (c : Contact.t) :
  StronglySorted Z.lt (Contact.id <$> rows) →
  c ∈ rows →
  find (fun x => Contact.id x =? Contact.id c) rows = Some c.
Proof.
  induction rows as [|x rows IH]; simpl; intros Hs Hin.
  - by apply elem_of_nil in Hin.
  - apply StronglySorted_inv in Hs as [Hrest Hx].
    rewrite Forall_forall in Hx.
    apply elem_of_cons in Hin as [->|Hin]; [by rewrite Z.eqb_refl|].
    pose proof (Hx _ (list_elem_of_fmap_2 Contact.id _ _ Hin)) as Hlt.
    destruct (Z.eqb_spec (Contact.id x) (Contact.id c)); [lia|by apply IH].
Qed.

(** The detail view answers 404 exactly when no stored contact has the
    requested id and the id lies in the signed 64-bit range; it fails with
    [OverflowError] exactly when no stored contact has the id and the id lies
    outside that range; and a contact it shows is a row of the store with
    that id. *)
Theorem edit_contact_not_found_iff (contact_id : Z) (db : Store) :
  (edit_contact contact_id db = HTTPException 404 "Contact not found"
   ↔ - 2 ^ 63 ≤ contact_id < 2 ^ 63
     ∧ ∀ c, c ∈ contacts db → Contact.id c ≠ contact_id)
  ∧ (edit_contact contact_id db = OverflowError
     ↔ ¬ (- 2 ^ 63 ≤ contact_id < 2 ^ 63)
       ∧ ∀ c, c ∈ contacts db → Contact.id c ≠ contact_id)
  ∧ ∀ c, edit_contact contact_id db = TemplateResponse c →
         c ∈ contacts db ∧ Contact.id c = contact_id.
Proof.
  unfold edit_contact. rewrite <- query_contact_None.
  destruct (query_contact db contact_id) as [c0|] eqn:Hq.
  - split; [|split].
    + split; [done|]. by intros [_ ?].
    + split; [done|]. by intros [_ ?].
    + intros c [= ->]. by apply query_contact_Some.
  - unfold no_contact. rewrite <- sqlite_integer_spec.
    destruct (sqlite_integer contact_id); split; [|split| |split];
      try (split; [done|by intros [? _]]);
      try (split; [by intros _|done]);
      try (by intros c).
Qed.

(** In a store that satisfies the invariant every stored contact is what
    the detail view of its id shows. *)
Theorem edit_contact_returns_stored (db : Store) (c : Contact.t) :
  wf_store db →
  c ∈ contacts db →
  edit_contact (Contact.id c) db = TemplateResponse c.
Proof.
  intros [Hids _ _] Hin. unfold edit_contact, query_contact.
  by rewrite find_unique_id.
Qed.

Lemma edit_contact_returns_stored_witness :
  wf_store sample_store
  ∧ edit_contact 1 sample_store
    = TemplateResponse
        (Contact.mk 1 "Test User" "t@example.com" None (Some "Acme") "Lead"
           None 40).
Proof.
  assert (Hwf : wf_store sample_store) by (unfold sample_store; auto with store).
  split; [exact Hwf|].
  apply (edit_contact_returns_stored sample_store
           (Contact.mk 1 "Test User" "t@example.com" None (Some "Acme") "Lead"
              None 40) Hwf).
  vm_compute. apply list_elem_of_here.
Defined.

(** ** Updating a contact that does not exist *)

(** [update_contact] for an id that no stored contact has returns the
    store as it was; it raises the 404 [HTTPException] when the id lies in
    the signed 64-bit range and fails with [OverflowError] when it does
    not. *)
Theorem update_contact_not_found (contact_id : Z)
    (name email : string) (phone company : option string) (status : string)
    (competitive_intel : option string) (db : Store) :
  (∀ c, c ∈ contacts db → Contact.id c ≠ contact_id) →
  (update_contact contact_id name email phone company status
     competitive_intel db).1 = db
  ∧ (- 2 ^ 63 ≤ contact_id < 2 ^ 63 →
     update_contact contact_id name email phone company status
       competitive_intel db
     = (db, HTTPException 404 "Contact not found"))
  ∧ (¬ (- 2 ^ 63 ≤ contact_id < 2 ^ 63) →
     update_contact contact_id name email phone company status
       competitive_intel db
     = (db, OverflowError)).
Proof.
  intros Hmissing. apply query_contact_None in Hmissing.
  unfold update_contact. rewrite Hmissing.
  destruct (@no_contact_cases unit contact_id) as [Hin Hout].
  split; [done|]. split; intros Hrange; f_equal; auto.
Qed.

Lemma update_contact_not_found_witness :
  (∀ c, c ∈ contacts sample_store → Contact.id c ≠ 7)
  ∧ - 2 ^ 63 ≤ 7 < 2 ^ 63
  ∧ update_contact 7 "N" "n@example.com" None None "Lead" None sample_store
    = (sample_store, HTTPException 404 "Contact not found").
Proof.
  assert (H : ∀ c, c ∈ contacts sample_store → Contact.id c ≠ 7).
  { intros c Hc. vm_compute in Hc.
    apply list_elem_of_singleton in Hc. by subst c. }
  assert (Hrange : - 2 ^ 63 ≤ 7 < 2 ^ 63) by lia.
  split; [exact H|]. split; [exact Hrange|].
  exact (proj1 (proj2 (update_contact_not_found 7 "N" "n@example.com" None
                         None "Lead" None sample_store H)) Hrange).
Defined.

(** ** Logging an activity *)

(** For the id of a stored contact, [add_activity] redirects to the
    contact's page, leaves the contact table alone and appends one activity
    that carries a fresh id, the contact's id, the submitted description and
    the clock reading.  The activity comes last in the log of that contact;
    the log of a contact with another id is unchanged. *)
Theorem add_activity_appends (now contact_id : Z) (description : string)
    (db : Store) (c : Contact.t) :
  edit_contact contact_id db = TemplateResponse c →
  let result := add_activity now contact_id description db in
  let added :=
    Activity.mk (next_rowid (Activity.id <$> activities db)) contact_id
      description now in
  result.2 = RedirectResponse (contact_url contact_id)
  ∧ contacts result.1 = contacts db
  ∧ activities result.1 = activities db ++ [added]
  ∧ (∀ a, a ∈ activities db → Activity.id a ≠ Activity.id added)
  ∧ contact_activities result.1 c = contact_activities db c ++ [added]
  ∧ ∀ c', Contact.id c' ≠ contact_id →
      contact_activities result.1 c' = contact_activities db c'.
Proof.
  unfold edit_contact.
  destruct (query_contact db contact_id) as [c0|] eqn:Hq;
    [|by intros ?%no_contact_not_template].
  intros [= ->]. pose proof (query_contact_Some _ _ _ Hq) as [_ Hid].
  unfold add_activity. rewrite Hq. simpl. rewrite Hid.
  split; [done|]. split; [done|]. split; [done|]. split; [|split].
  - intros a Ha.
    pose proof (next_rowid_fresh (Activity.id <$> activities db)
                  (Activity.id a) (list_elem_of_fmap_2 _ _ _ Ha)). lia.
  - unfold contact_activities. simpl. rewrite filter_app, Hid.
    by rewrite filter_cons_True, filter_nil.
  - intros c' Hne. unfold contact_activities. simpl. rewrite filter_app.
    rewrite filter_cons_False, filter_nil, app_nil_r; [done|].
    simpl. congruence.
Qed.

Lemma add_activity_appends_witness :
  edit_contact 1 sample_store
    = TemplateResponse
        (Contact.mk 1 "Test User" "t@example.com" None (Some "Acme") "Lead"
           None 40)
  ∧ Activity.description
      <$> activities (add_activity 60 1 "Sent quote" sample_store).1
    = ["Called, left voicemail"; "Sent quote"].
Proof.
  split; [reflexivity|].
  pose proof (add_activity_appends 60 1 "Sent quote" sample_store _ eq_refl)
    as (_ & _ & Hacts & _).
  rewrite Hacts. reflexivity.
Defined.

Lemma filter_none {A : Type} (P : A → Prop) `{!∀ x, Decision (P x)}
    (rows : list A) :
  (∀ x, x ∈ rows → ¬ P x) → filter P rows = [].
Proof.
  induction rows as [|x rows IH]; intros Hall; [done|].
  rewrite filter_cons_False by (apply Hall; by left).
  apply IH. intros y Hy. apply Hall. by right.
Qed.

(** A contact that has just been created has an empty activity log, also
    when its id was used before by a contact that has been deleted since:
    no stored activity refers to the new id.  One call of [add_activity] for
    the new id then makes the log hold exactly the logged activity. *)
Theorem created_contact_activity_log (now later : Z)
    (name email : string) (phone company : option string) (status : string)
    (competitive_intel : option string) (description : string) (db : Store) :
  no_orphans db →
  let created :=
    create_contact now name email phone company status competitive_intel db in
  let new_id := next_rowid (Contact.id <$> contacts db) in
  let stored :=
    Contact.mk new_id name email phone company status competitive_intel now in
  let logged := add_activity later new_id description created.1 in
  contact_activities created.1 stored = []
  ∧ edit_contact new_id logged.1 = TemplateResponse stored
  ∧ contact_activities logged.1 stored
    = [Activity.mk (next_rowid (Activity.id <$> activities db)) new_id
         description later].
Proof.
  intros Horph. cbv zeta.
  destruct (edit_contact_after_insert db name email phone company status
              competitive_intel now) as [Hget Hfresh].
  change (create_contact now name email phone company status
            competitive_intel db).1
    with (insert_contact db name email phone company status
            competitive_intel now).1.
  set (new_id := next_rowid (Contact.id <$> contacts db)) in *.
  set (stored := Contact.mk new_id name email phone company status
                   competitive_intel now) in *.
  set (db1 := (insert_contact db name email phone company status
                 competitive_intel now).1) in *.
  assert (Hnone : contact_activities db1 stored = []).
  { unfold contact_activities. apply filter_none. intros a Ha E.
    destruct (Horph a Ha) as [c [Hc Hid]]. apply (Hfresh c Hc).
    simpl in E. congruence. }
  split; [exact Hnone|].
  unfold edit_contact in Hget.
  destruct (query_contact db1 new_id) as [c0|] eqn:Hq;
    [|by apply no_contact_not_template in Hget].
  injection Hget as ->.
  unfold add_activity. rewrite Hq. split.
  - unfold edit_contact.
    replace (query_contact _ new_id) with (query_contact db1 new_id)
      by reflexivity.
    by rewrite Hq.
  - change (contact_activities _ stored)
      with (filter (fun a => Activity.contact_id a = Contact.id stored)
              (activities db1
               ++ [Activity.mk (next_rowid (Activity.id <$> activities db))
                     new_id description later])).
    rewrite filter_app. fold (contact_activities db1 stored).
    rewrite Hnone. by rewrite filter_cons_True, filter_nil.
Qed.

Lemma created_contact_activity_log_witness :
  no_orphans sample_store
  ∧ contact_activities
      (add_activity 80 2 "Intro call"
         (create_contact 70 "Second" "s@example.com" None None "Lead" None
            sample_store).1).1
      (Contact.mk 2 "Second" "s@example.com" None None "Lead" None 70)
    = [Activity.mk 2 2 "Intro call" 80].
Proof.
  assert (Horph : no_orphans sample_store).
  { apply reachable_no_orphans. repeat constructor. }
  split; [exact Horph|].
  exact (proj2 (proj2 (created_contact_activity_log 70 80 "Second"
                         "s@example.com" None None "Lead" None "Intro call"
                         sample_store Horph))).
Defined.

(** ** What an update keeps and what it moves *)

Lemma update_row_created_at contact_id name email phone company status intel c :
  Contact.created_at
    (update_row contact_id name email phone company status intel c)
  = Contact.created_at c.
Proof. unfold update_row. by destruct (_ =? _). Qed.

Lemma insert_desc_fmap (f : Contact.t → Contact.t) (c : Contact.t)
    (sorted : list Contact.t) :
  (∀ x, Contact.created_at (f x) = Contact.created_at x) →
  insert_desc (f c) (f <$> sorted) = f <$> insert_desc c sorted.
Proof.
  intros Hf. induction sorted as [|x rest IH]; [done|].
  rewrite fmap_cons. simpl. rewrite !Hf.
  destruct (_ <? _); [|done]. by rewrite IH.
Qed.

Lemma order_by_created_at_desc_fmap (f : Contact.t → Contact.t)
    (rows : list Contact.t) :
  (∀ x, Contact.created_at (f x) = Contact.created_at x) →
  order_by_created_at_desc (f <$> rows) = f <$> order_by_created_at_desc rows.
Proof.
  intros Hf. induction rows as [|c rows IH]; [done|].
  rewrite fmap_cons. simpl. fold (order_by_created_at_desc (f <$> rows)).
  fold (order_by_created_at_desc rows). by rewrite IH, insert_desc_fmap.
Qed.

Lemma update_contact_keeps_listing_aux contact_id name email phone company
    status intel db :
  let db' :=
    (update_contact contact_id name email phone company status intel db).1 in
  contact_key <$> contacts db' = contact_key <$> contacts db
  ∧ activities db' = activities db.
Proof.
  cbv zeta. unfold update_contact.
  destruct (query_contact db contact_id) as [old|]; [|done]. simpl.
  split; [|done].
  rewrite <- list_fmap_compose. apply list_fmap_ext. intros _ c _.
  unfold contact_key. simpl.
  by rewrite update_row_id, update_row_created_at.
Qed.

(** Whatever is submitted, and whether or not the id exists,
    [update_contact] leaves every contact at its place in the table with its
    id and creation timestamp, does not touch the activities, and so does not
    change the order in which the contact list shows the contacts. *)
Theorem update_contact_keeps_listing (contact_id : Z)
    (name email : string) (phone company : option string) (status : string)
    (competitive_intel : option string) (db : Store) :
  let db' :=
    (update_contact contact_id name email phone company status
       competitive_intel db).1 in
  contact_key <$> contacts db' = contact_key <$> contacts db
  ∧ activities db' = activities db
  ∧ Contact.id <$> list_contacts db' = Contact.id <$> list_contacts db.
Proof.
  cbv zeta. unfold update_contact.
  destruct (query_contact db contact_id) as [old|]; [|done]. simpl.
  split; [|split; [done|]].
  - rewrite <- list_fmap_compose. apply list_fmap_ext. intros _ c _.
    unfold contact_key. simpl.
    by rewrite update_row_id, update_row_created_at.
  - unfold list_contacts. simpl.
    rewrite order_by_created_at_desc_fmap
      by (intros; apply update_row_created_at).
    rewrite <- list_fmap_compose. apply list_fmap_ext. intros _ c _.
    apply update_row_id.
Qed.

Lemma update_row_twice contact_id
    name1 email1 phone1 company1 status1 intel1
    name2 email2 phone2 company2 status2 intel2 (c : Contact.t) :
  update_row contact_id name2 email2 phone2 company2 status2 intel2
    (update_row contact_id name1 email1 phone1 company1 status1 intel1 c)
  = update_row contact_id name2 email2 phone2 company2 status2 intel2 c.
Proof.
  unfold update_row.
  destruct (Z.eqb_spec (Contact.id c) contact_id) as [E|N]; simpl.
  - by rewrite E, Z.eqb_refl.
  - by destruct (Z.eqb_spec (Contact.id c) contact_id).
Qed.

(** Two updates of the same id in a row leave the store, and give the
    response, of the second update alone: nothing of the first submission
    survives. *)
Theorem update_contact_last_wins (contact_id : Z)
    (name1 email1 : string) (phone1 company1 : option string)
    (status1 : string) (intel1 : option string)
    (name2 email2 : string) (phone2 company2 : option string)
    (status2 : string) (intel2 : option string) (db : Store) :
  update_contact contact_id name2 email2 phone2 company2 status2 intel2
    (update_contact contact_id name1 email1 phone1 company1 status1 intel1
       db).1
  = update_contact contact_id name2 email2 phone2 company2 status2 intel2 db.
Proof.
  unfold update_contact at 2 3.
  destruct (query_contact db contact_id) as [old|] eqn:Hq.
  - pose proof (query_contact_Some _ _ _ Hq) as [_ Hid].
    unfold update_contact, query_contact in *. simpl.
    rewrite Hid, find_fmap_update_row, Hq. simpl.
    rewrite update_row_id, Hid. f_equal. f_equal.
    rewrite <- list_fmap_compose. apply list_fmap_ext. intros _ c _.
    apply update_row_twice.
  - simpl. unfold update_contact. by rewrite Hq.
Qed.

(** After an update to a canonical status the contact is on the board in
    the bucket of that status, and no other bucket holds a contact with its
    id: the card has moved. *)
Theorem update_contact_moves_card (contact_id : Z)
    (name email : string) (phone company : option string) (status : string)
    (competitive_intel : option string) (db : Store) (old : Contact.t) :
  edit_contact contact_id db = TemplateResponse old →
  is_canonical status →
  let db' :=
    (update_contact contact_id name email phone company status
       competitive_intel db).1 in
  let updated :=
    Contact.mk contact_id name email phone company status competitive_intel
      (Contact.created_at old) in
  (∃ bucket, kanban_board db' !! status = Some bucket ∧ updated ∈ bucket)
  ∧ ∀ k bucket c,
      k ≠ status → kanban_board db' !! k = Some bucket → c ∈ bucket →
      Contact.id c ≠ contact_id.
Proof.
  unfold edit_contact.
  destruct (query_contact db contact_id) as [c0|] eqn:Hq;
    [|by intros ?%no_contact_not_template].
  intros [= ->] Hcanon. pose proof (query_contact_Some _ _ _ Hq) as [Hin Hid].
  cbv zeta. unfold update_contact. rewrite Hq. simpl. rewrite Hid. split.
  - eexists. rewrite kanban_board_lookup, decide_True by exact Hcanon.
    split; [reflexivity|]. apply list_elem_of_filter. split; [done|]. simpl.
    apply list_elem_of_fmap. exists old. split; [|done].
    unfold update_row. by rewrite Hid, Z.eqb_refl.
  - intros k bucket c Hk. rewrite kanban_board_lookup.
    case_decide; [|done]. intros [= <-].
    intros [Hstatus [x [-> Hx]]%list_elem_of_fmap]%list_elem_of_filter.
    unfold update_row in *.
    destruct (Z.eqb_spec (Contact.id x) contact_id); simpl in *; congruence.
Qed.

Lemma update_contact_moves_card_witness :
  edit_contact 1 sample_store
    = TemplateResponse
        (Contact.mk 1 "Test User" "t@example.com" None (Some "Acme") "Lead"
           None 40)
  ∧ is_canonical "Closed"
  ∧ ∃ bucket,
      kanban_board
        (update_contact 1 "Test User" "t@example.com" None (Some "Acme")
           "Closed" None sample_store).1 !! "Closed" = Some bucket
      ∧ Contact.mk 1 "Test User" "t@example.com" None (Some "Acme") "Closed"
          None 40 ∈ bucket.
Proof.
  assert (Hcanon : is_canonical "Closed").
  { apply canonical_iff. tauto. }
  split; [reflexivity|]. split; [exact Hcanon|].
  exact (proj1 (update_contact_moves_card 1 "Test User" "t@example.com" None
                  (Some "Acme") "Closed" None sample_store _ eq_refl Hcanon)).
Defined.

(** ** The board after a creation *)

(** [create_contact] puts the new contact at the end of the bucket of its
    status and leaves every other bucket as it was; with a status that is
    not canonical the whole board is unchanged. *)
Theorem kanban_board_after_create (now : Z)
    (name email : string) (phone company : option string) (status : string)
    (competitive_intel : option string) (db : Store) (k : string) :
  let db' :=
    (create_contact now name email phone company status competitive_intel
       db).1 in
  let stored :=
    Contact.mk (next_rowid (Contact.id <$> contacts db)) name email phone
      company status competitive_intel now in
  kanban_board db' !! k
  = (fun bucket => bucket ++ (if decide (status = k) then [stored] else []))
      <$> kanban_board db !! k.
Proof.
  cbv zeta. rewrite !kanban_board_lookup. case_decide; [|done]. simpl.
  by rewrite filter_app.
Qed.

(** ** Invariants of the writing steps *)

Lemma next_rowid_positive (ids : list Z) :
  Forall (fun i => 1 ≤ i) ids → 1 ≤ next_rowid ids.
Proof.
  destruct ids as [|i rest]; simpl; [lia|].
  intros [Hi _]%Forall_cons. destruct (foldr_max_ge i rest) as [Hge _]. lia.
Qed.

Lemma Forall_snoc_rowid (ids : list Z) :
  Forall (fun i => 1 ≤ i) ids →
  Forall (fun i => 1 ≤ i) (ids ++ [next_rowid ids]).
Proof.
  intros Hpos. apply Forall_app. split; [done|].
  apply Forall_singleton. by apply next_rowid_positive.
Qed.

Lemma seed_one_unfold hash utcnow db k data :
  seed_one hash utcnow (db, k) data
  = (mkStore
       (contacts db
        ++ [Contact.mk (next_rowid (Contact.id <$> contacts db))
              (Fixture.name data) (Fixture.email data) (Some "555-0100")
              (Some (Fixture.company data)) (Fixture.status data)
              (Some (Fixture.intel data))
              (seed_created_at hash (utcnow k) data)])
       (activities db
        ++ [Activity.mk (next_rowid (Activity.id <$> activities db))
              (next_rowid (Contact.id <$> contacts db))
              (initial_activity_description (Fixture.status data))
              (utcnow (S k))]),
     S (S k)).
Proof. reflexivity. Qed.

Lemma history_kept_refl (db : Store) : history_kept db db.
Proof. by split. Qed.

Lemma history_kept_trans (db1 db2 db3 : Store) :
  history_kept db1 db2 → history_kept db2 db3 → history_kept db1 db3.
Proof. intros [H1 H2] [H3 H4]. split; by etrans. Qed.

Lemma seed_one_step hash utcnow db k data :
  let db' := (seed_one hash utcnow (db, k) data).1 in
  history_kept db db' ∧ (ids_positive db → ids_positive db').
Proof.
  cbv zeta. rewrite seed_one_unfold. split.
  - split; cbn [fst contacts activities]; rewrite ?fmap_app;
      by apply prefix_app_r.
  - intros [Hc Ha].
    split; cbn [fst contacts activities]; rewrite fmap_app;
      by apply Forall_snoc_rowid.
Qed.

Lemma seed_fold_step hash utcnow (fixtures : list Fixture.t) db k :
  let db' := (foldl (seed_one hash utcnow) (db, k) fixtures).1 in
  history_kept db db' ∧ (ids_positive db → ids_positive db').
Proof.
  cbv zeta. revert db k.
  induction fixtures as [|data rest IH]; intros db k.
  - split; [apply history_kept_refl|done].
  - change (foldl (seed_one hash utcnow) (db, k) (data :: rest))
      with (foldl (seed_one hash utcnow)
              (seed_one hash utcnow (db, k) data) rest).
    destruct (seed_one_step hash utcnow db k data) as [Hh Hp].
    destruct (seed_one hash utcnow (db, k) data) as [db1 k1]. simpl in *.
    destruct (IH db1 k1) as [Hh' Hp']. split.
    + by eapply history_kept_trans.
    + auto.
Qed.

Lemma route_step_invariant (db db' : Store) :
  route_step db db' →
  (wf_store db → wf_store db')
  ∧ (ids_positive db → ids_positive db')
  ∧ history_kept db db'.
Proof.
  intros Hstep. split; [|split].
  - destruct Hstep; auto with store.
  - destruct Hstep as [hash utcnow db|now name email phone company status
      intel db|contact_id name email phone company status intel db
      |now contact_id description db].
    + unfold seed_data. destruct (first_contact db); [done|].
      apply seed_fold_step.
    + intros [Hc Ha]. split; simpl; [|done].
      rewrite fmap_app. by apply Forall_snoc_rowid.
    + unfold update_contact. destruct (query_contact db contact_id); [|done].
      intros [Hc Ha]. split; simpl; [|done].
      rewrite <- list_fmap_compose.
      erewrite list_fmap_ext; [exact Hc|]. intros _ c _. apply update_row_id.
    + unfold add_activity. destruct (query_contact db contact_id); [|done].
      intros [Hc Ha]. split; simpl; [done|].
      rewrite fmap_app. by apply Forall_snoc_rowid.
  - destruct Hstep as [hash utcnow db|now name email phone company status
      intel db|contact_id name email phone company status intel db
      |now contact_id description db].
    + unfold seed_data. destruct (first_contact db);
        [apply history_kept_refl|apply seed_fold_step].
    + split; simpl; [|done]. rewrite fmap_app. by apply prefix_app_r.
    + destruct (update_contact_keeps_listing_aux contact_id name email phone
                  company status intel db) as [Hk Ha].
      split; [by rewrite Hk|by rewrite Ha].
    + unfold add_activity. destruct (query_contact db contact_id);
        [|apply history_kept_refl].
      split; simpl; [done|]. by apply prefix_app_r.
Qed.

(** From the empty database, whatever the sequence of seeding runs,
    creations, updates and activity logs, the ids of each table increase
    strictly along the table (so no two rows share an id), every id is at
    least 1, and every activity refers to a stored contact. *)
Theorem route_steps_keep_invariant (db : Store) :
  rtc route_step empty_store db →
  wf_store db ∧ ids_positive db.
Proof.
  assert (Hgen : ∀ db0 db1, rtc route_step db0 db1 →
            wf_store db0 ∧ ids_positive db0 →
            wf_store db1 ∧ ids_positive db1).
  { induction 1 as [|db0 db1 db2 Hstep _ IH]; [done|].
    intros [Hwf Hpos]. apply IH.
    destruct (route_step_invariant _ _ Hstep) as (Hw & Hp & _). auto. }
  intros Hreach. apply (Hgen _ _ Hreach).
  split; [apply wf_empty_store|]. split; constructor.
Qed.

Lemma route_steps_keep_invariant_witness :
  rtc route_step empty_store sample_store
  ∧ wf_store sample_store ∧ ids_positive sample_store.
Proof.
  assert (Hreach : rtc route_step empty_store sample_store).
  { unfold sample_store.
    eapply rtc_l;
      [exact (step_create 40 "Test User" "t@example.com" None (Some "Acme")
                "Lead" None empty_store)|].
    eapply rtc_l; [apply (step_add_activity 50 1 "Called, left voicemail")|].
    apply rtc_refl. }
  split; [exact Hreach|].
  exact (route_steps_keep_invariant sample_store Hreach).
Defined.

(** No sequence of seeding runs, creations, updates and activity logs
    removes or reorders a contact or changes its id or creation timestamp,
    and none removes, reorders or modifies an activity: the earlier tables
    remain as the first rows of the later ones. *)
Theorem route_steps_keep_history (db db' : Store) :
  rtc route_step db db' → history_kept db db'.
Proof.
  induction 1 as [|db0 db1 db2 Hstep _ IH]; [apply history_kept_refl|].
  destruct (route_step_invariant _ _ Hstep) as (_ & _ & Hh).
  by eapply history_kept_trans.
Qed.

Lemma route_steps_keep_history_witness :
  rtc route_step sample_store
    (update_contact 1 "New Name" "n@example.com" None None "Closed" None
       (add_activity 60 1 "Sent quote" sample_store).1).1
  ∧ history_kept sample_store
      (update_contact 1 "New Name" "n@example.com" None None "Closed" None
         (add_activity 60 1 "Sent quote" sample_store).1).1.
Proof.
  assert (Hreach : rtc route_step sample_store
            (update_contact 1 "New Name" "n@example.com" None None "Closed"
               None (add_activity 60 1 "Sent quote" sample_store).1).1).
  { eapply rtc_l; [apply (step_add_activity 60 1 "Sent quote")|].
    eapply rtc_l;
      [apply (step_update 1 "New Name" "n@example.com" None None "Closed"
                None)|].
    apply rtc_refl. }
  split; [exact Hreach|].
  exact (route_steps_keep_history _ _ Hreach).
Defined.

(** ** The seeded store *)

Lemma seed_one_initial_activity hash utcnow db k data :
  wf_store db →
  (∀ c, c ∈ contacts db →
     ∃ a, contact_activities db c = [a]
          ∧ Activity.description a
            = initial_activity_description (Contact.status c)) →
  ∀ c, c ∈ contacts (seed_one hash utcnow (db, k) data).1 →
    ∃ a, contact_activities (seed_one hash utcnow (db, k) data).1 c = [a]
         ∧ Activity.description a
           = initial_activity_description (Contact.status c).
Proof.
  intros [_ _ Horph] Heach c. rewrite seed_one_unfold.
  cbn [fst contacts activities]. unfold contact_activities.
  cbn [activities]. rewrite filter_app.
  assert (Hfresh : ∀ x, x ∈ contacts db →
            Contact.id x ≠ next_rowid (Contact.id <$> contacts db)).
  { intros x Hx.
    pose proof (next_rowid_fresh (Contact.id <$> contacts db) (Contact.id x)
                  (list_elem_of_fmap_2 _ _ _ Hx)). lia. }
  intros [Hold| ->%list_elem_of_singleton]%elem_of_app.
  - destruct (Heach c Hold) as [a [Ha Hd]]. exists a. split; [|done].
    unfold contact_activities in Ha. rewrite Ha.
    rewrite filter_cons_False, filter_nil; [done|].
    simpl. intros E. by apply (Hfresh c Hold).
  - exists (Activity.mk (next_rowid (Activity.id <$> activities db))
              (next_rowid (Contact.id <$> contacts db))
              (initial_activity_description (Fixture.status data))
              (utcnow (S k))).
    split; [|reflexivity].
    rewrite (filter_none _ (activities db)).
    + by rewrite filter_cons_True, filter_nil.
    + intros a Ha E. destruct (Horph a Ha) as [x [Hx Hid]].
      apply (Hfresh x Hx). simpl in E. congruence.
Qed.

Lemma seed_fold_initial_activity hash utcnow (fixtures : list Fixture.t) db k :
  wf_store db →
  (∀ c, c ∈ contacts db →
     ∃ a, contact_activities db c = [a]
          ∧ Activity.description a
            = initial_activity_description (Contact.status c)) →
  ∀ c, c ∈ contacts (foldl (seed_one hash utcnow) (db, k) fixtures).1 →
    ∃ a, contact_activities
           (foldl (seed_one hash utcnow) (db, k) fixtures).1 c = [a]
         ∧ Activity.description a
           = initial_activity_description (Contact.status c).
Proof.
  revert db k. induction fixtures as [|data rest IH]; intros db k Hwf Heach.
  - exact Heach.
  - change (foldl (seed_one hash utcnow) (db, k) (data :: rest))
      with (foldl (seed_one hash utcnow)
              (seed_one hash utcnow (db, k) data) rest).
    pose proof (wf_seed_one hash utcnow db k data Hwf) as Hwf1.
    pose proof (seed_one_initial_activity hash utcnow db k data Hwf Heach)
      as Heach1.
    destruct (seed_one hash utcnow (db, k) data) as [db1 k1].
    by apply IH.
Qed.

Lemma seed_data_empty_store hash utcnow :
  seed_data hash utcnow empty_store
  = (foldl (seed_one hash utcnow) (empty_store, 0%nat) initial_contacts).1.
Proof. reflexivity. Qed.

(** Seeding the empty database, under any hash function and any clock,
    stores the ten fixtures in the order of [initial_contacts] with the ids
    1 to 10, the phone number "555-0100" and the fixture's other values, and
    gives every contact exactly one activity, described as
    "Initial contact created via <status> campaign." for the status of that
    contact. *)
Theorem seed_data_fresh_database (hash : string → Z) (utcnow : nat → Z) :
  let db := seed_data hash utcnow empty_store in
  Contact.id <$> contacts db = [1; 2; 3; 4; 5; 6; 7; 8; 9; 10]
  ∧ (fun c => (Contact.name c, Contact.email c, Contact.phone c,
               Contact.company c, Contact.status c,
               Contact.competitive_intel c)) <$> contacts db
    = (fun d => (Fixture.name d, Fixture.email d, Some "555-0100",
                 Some (Fixture.company d), Fixture.status d,
                 Some (Fixture.intel d))) <$> initial_contacts
  ∧ length (activities db) = 10%nat
  ∧ ∀ c, c ∈ contacts db →
      ∃ a, contact_activities db c = [a]
           ∧ Activity.contact_id a = Contact.id c
           ∧ Activity.description a
             = initial_activity_description (Contact.status c).
Proof.
  cbv zeta. split; [reflexivity|]. split; [reflexivity|].
  split; [reflexivity|]. rewrite seed_data_empty_store. intros c Hc.
  pose proof (seed_fold_initial_activity hash utcnow initial_contacts
                empty_store 0%nat wf_empty_store) as Hall.
  destruct (Hall (fun x (Hx : x ∈ []) =>
                    False_ind _ (proj1 (elem_of_nil x) Hx)) c Hc)
    as [a [Ha Hd]].
  exists a. split; [exact Ha|]. split; [|exact Hd].
  assert (Hin : a ∈ contact_activities
                      (foldl (seed_one hash utcnow) (empty_store, 0%nat)
                         initial_contacts).1 c).
  { rewrite Ha. apply list_elem_of_here. }
  by apply contact_activities_elem_of in Hin as [_ ?].
Qed.

(** ** The intel report *)

Lemma string_compare_refl (s : string) : String.compare s s = Eq.
Proof.
  pose proof (String.compare_antisym s s) as H.
  by destruct (String.compare s s).
Qed.

Lemma string_compare_lt_trans (s t u : string) :
  String.compare s t = Lt → String.compare t u = Lt → String.compare s u = Lt.
Proof.
  revert t u. induction s as [|c1 s IH]; intros [|c2 t] [|c3 u]; simpl;
    try done.
  unfold Ascii.compare.
  destruct (N.compare_spec (Ascii.N_of_ascii c1) (Ascii.N_of_ascii c2));
    try done;
    destruct (N.compare_spec (Ascii.N_of_ascii c2) (Ascii.N_of_ascii c3));
    try done;
    destruct (N.compare_spec (Ascii.N_of_ascii c1) (Ascii.N_of_ascii c3));
    try done; try lia.
  apply IH.
Qed.

Lemma company_ltb_irrefl (a : option string) : company_ltb a a = false.
Proof. destruct a as [s|]; simpl; [|done]. by rewrite string_compare_refl. Qed.

Lemma company_ltb_asym (a b : option string) :
  company_ltb a b = true → company_ltb b a = false.
Proof.
  destruct a as [s|], b as [t|]; simpl; try done.
  rewrite (String.compare_antisym s t). by destruct (String.compare t s).
Qed.

Lemma company_ltb_false_trans (a b c : option string) :
  company_ltb b a = false → company_ltb c b = false →
  company_ltb c a = false.
Proof.
  destruct a as [s|], b as [t|], c as [u|]; simpl; try done.
  destruct (String.compare u s) eqn:Hus; try done.
  intros Hts Hut. exfalso.
  destruct (String.compare t s) eqn:Ets; try done.
  - apply String.compare_eq_iff in Ets as ->. by rewrite Hus in Hut.
  - assert (Hst : String.compare s t = Lt)
      by (rewrite String.compare_antisym, Ets; done).
    by rewrite (string_compare_lt_trans u s t Hus Hst) in Hut.
Qed.

Lemma insert_by_company_perm (c : Contact.t) (sorted : list Contact.t) :
  insert_by_company c sorted ≡ₚ c :: sorted.
Proof.
  induction sorted as [|x rest IH]; simpl; [done|].
  destruct (company_ltb _ _); [|done]. rewrite IH. apply Permutation_swap.
Qed.

Lemma insert_by_company_sorted (c : Contact.t) (sorted : list Contact.t) :
  StronglySorted by_company sorted →
  StronglySorted by_company (insert_by_company c sorted).
Proof.
  induction sorted as [|x rest IH]; simpl; intros Hs.
  - repeat constructor.
  - apply StronglySorted_inv in Hs as [Hrest Hx].
    destruct (company_ltb (Contact.company x) (Contact.company c)) eqn:E.
    + constructor; [by apply IH|].
      rewrite insert_by_company_perm. constructor; [|done].
      by apply company_ltb_asym.
    + constructor; [by constructor|]. constructor; [exact E|].
      eapply Forall_impl; [exact Hx|]. intros y Hy.
      by apply (company_ltb_false_trans _ (Contact.company x)).
Qed.

Lemma insert_by_company_ties (k : option string) (c : Contact.t)
    (sorted : list Contact.t) :
  filter (fun x => Contact.company x = k) (insert_by_company c sorted)
  = filter (fun x => Contact.company x = k) (c :: sorted).
Proof.
  induction sorted as [|x rest IH]; simpl; [done|].
  destruct (company_ltb (Contact.company x) (Contact.company c)) eqn:E;
    [|done].
  rewrite (filter_cons _ x), IH, !filter_cons.
  repeat case_decide; try done. exfalso.
  assert (Heq : Contact.company x = Contact.company c) by congruence.
  rewrite Heq, company_ltb_irrefl in E. done.
Qed.

(** [intel_view] lists every contact of the store, each once, by
    ascending company: contacts without a company first, then byte-wise
    lexicographic order of the company names; a contact without a company
    is never listed after one that has a company, and contacts with the same
    company (or all without) stay in table order. *)
Theorem intel_view_sorted_by_company (db : Store) :
  intel_view db ≡ₚ contacts db
  ∧ StronglySorted by_company (intel_view db)
  ∧ (∀ before a after b,
       intel_view db = before ++ a :: after → b ∈ after →
       Contact.company b = None → Contact.company a = None)
  ∧ ∀ k, filter (fun c => Contact.company c = k) (intel_view db)
         = filter (fun c => Contact.company c = k) (contacts db).
Proof.
  assert (Hperm : ∀ rows, order_by_company rows ≡ₚ rows).
  { induction rows as [|c rows IH]; simpl; [done|].
    by rewrite insert_by_company_perm, IH. }
  assert (Hsorted : ∀ rows, StronglySorted by_company (order_by_company rows)).
  { induction rows as [|c rows IH]; simpl; [constructor|].
    by apply insert_by_company_sorted. }
  unfold intel_view. split; [apply Hperm|]. split; [apply Hsorted|]. split.
  - intros before a after b Heq Hb Hnone.
    pose proof (Hsorted (contacts db)) as Hs. rewrite Heq in Hs.
    apply StronglySorted_app_1_r, StronglySorted_inv in Hs as [_ Ha].
    rewrite Forall_forall in Ha. specialize (Ha b Hb).
    unfold by_company in Ha. rewrite Hnone in Ha.
    by destruct (Contact.company a).
  - intros k. induction (contacts db) as [|c rows IH]; simpl; [done|].
    by rewrite insert_by_company_ties, !filter_cons, IH.
Qed.

Example intel_view_example :
  let db :=
    (create_contact 4 "D" "d@x" None (Some "Acme") "Lead" None
       (create_contact 3 "C" "c@x" None None "Lead" None
          (create_contact 2 "B" "b@x" None (Some "Acme") "Lead" None
             (create_contact 1 "A" "a@x" None (Some "Zeta") "Lead" None
                empty_store).1).1).1).1 in
  Contact.name <$> intel_view db = ["C"; "B"; "D"; "A"].
Proof. reflexivity. Qed.

(** ** A new contact in the list, and its id *)

Lemma foldr_insert_desc_newest (c : Contact.t) (rows : list Contact.t) :
  (∀ x, x ∈ rows → Contact.created_at x < Contact.created_at c) →
  foldr insert_desc [c] rows = c :: foldr insert_desc [] rows.
Proof.
  induction rows as [|x rows IH]; intros Hnew; [done|].
  simpl. rewrite IH by (intros y Hy; apply Hnew; by right). simpl.
  destruct (Z.ltb_spec (Contact.created_at x) (Contact.created_at c));
    [done|].
  pose proof (Hnew x ltac:(by left)). lia.
Qed.

(** When the clock reading of a creation is later than the creation
    timestamp of every stored contact, the new contact is the first entry of
    the contact list and the entries after it are the list as it was. *)
Theorem list_contacts_after_create (now : Z)
    (name email : string) (phone company : option string) (status : string)
    (competitive_intel : option string) (db : Store) :
  (∀ c, c ∈ contacts db → Contact.created_at c < now) →
  list_contacts
    (create_contact now name email phone company status competitive_intel
       db).1
  = Contact.mk (next_rowid (Contact.id <$> contacts db)) name email phone
      company status competitive_intel now
    :: list_contacts db.
Proof.
  intros Hnew. unfold list_contacts, order_by_created_at_desc. simpl.
  rewrite foldr_app. simpl. by apply foldr_insert_desc_newest.
Qed.

Lemma list_contacts_after_create_witness :
  (∀ c, c ∈ contacts sample_store → Contact.created_at c < 90)
  ∧ Contact.name
      <$> list_contacts
            (create_contact 90 "Second" "s@example.com" None None "Lead" None
               sample_store).1
    = ["Second"; "Test User"].
Proof.
  assert (H : ∀ c, c ∈ contacts sample_store → Contact.created_at c < 90).
  { intros c Hc. vm_compute in Hc.
    apply list_elem_of_singleton in Hc. by subst c. }
  split; [exact H|].
  rewrite (list_contacts_after_create 90 "Second" "s@example.com" None None
             "Lead" None sample_store H).
  reflexivity.
Defined.

Lemma foldr_max_snoc (i : Z) (rest : list Z) (j : Z) :
  foldr Z.max i (rest ++ [j]) = Z.max (foldr Z.max i rest) j.
Proof.
  induction rest as [|x rest IH]; simpl; [lia|]. rewrite IH. lia.
Qed.

Lemma next_rowid_snoc (ids : list Z) :
  next_rowid (ids ++ [next_rowid ids]) = next_rowid ids + 1.
Proof.
  destruct ids as [|i rest]; [reflexivity|].
  change (((i :: rest) ++ [next_rowid (i :: rest)]))
    with (i :: (rest ++ [next_rowid (i :: rest)])).
  unfold next_rowid at 1. rewrite foldr_max_snoc. simpl. lia.
Qed.

(** Two creations in a row receive consecutive ids, and the id returned
    for a creation is larger than every id in the table; logging an
    activity or updating a contact in between does not change the id the
    next creation receives. *)
Theorem create_contact_sequential_ids (now1 now2 : Z)
    (name1 email1 : string) (phone1 company1 : option string)
    (status1 : string) (intel1 : option string)
    (name2 email2 : string) (phone2 company2 : option string)
    (status2 : string) (intel2 : option string) (db : Store) :
  let db1 :=
    (create_contact now1 name1 email1 phone1 company1 status1 intel1 db).1 in
  let db2 :=
    (create_contact now2 name2 email2 phone2 company2 status2 intel2 db1).1 in
  (∃ c1 c2, contacts db2 = contacts db ++ [c1; c2]
            ∧ Contact.id c2 = Contact.id c1 + 1
            ∧ ∀ c, c ∈ contacts db → Contact.id c < Contact.id c1)
  ∧ (∀ now contact_id description,
       next_rowid (Contact.id
                     <$> contacts (add_activity now contact_id description
                                     db).1)
       = next_rowid (Contact.id <$> contacts db))
  ∧ ∀ contact_id name email phone company status intel,
      next_rowid (Contact.id
                    <$> contacts (update_contact contact_id name email phone
                                    company status intel db).1)
      = next_rowid (Contact.id <$> contacts db).
Proof.
  cbv zeta. split; [|split].
  - eexists _, _. split; [simpl; by rewrite <- app_assoc|]. simpl. split.
    + rewrite fmap_app. apply next_rowid_snoc.
    + intros c Hc. apply next_rowid_fresh. by apply list_elem_of_fmap_2.
  - intros now contact_id description. unfold add_activity.
    by destruct (query_contact db contact_id).
  - intros contact_id name email phone company status intel.
    unfold update_contact. destruct (query_contact db contact_id); [|done].
    simpl. f_equal. rewrite <- list_fmap_compose. apply list_fmap_ext.
    intros _ c _. apply update_row_id.
Qed.

(** ** Contacts created without the optional fields *)

Lemma order_by_company_perm (rows : list Contact.t) :
  order_by_company rows ≡ₚ rows.
Proof.
  induction rows as [|c rows IH]; simpl; [done|].
  by rewrite insert_by_company_perm, IH.
Qed.

Example Form_status_values :
  Form "Lead" None = "Lead"
  ∧ Form "Lead" (Some EmptyString) = "Lead"
  ∧ Form "Lead" (Some "Closed") = "Closed".
Proof. by repeat split. Qed.

(** C10. A contact submitted without phone, company and competitive
    intelligence notes is stored, with [None] in each of the three columns;
    it is on the contact list and on the intel report, and on the board in
    the bucket of its status whenever that status is canonical, in
    particular in the ["Lead"] bucket when the form carried no status or an
    empty one. *)
Theorem create_contact_without_optional_fields (now : Z)
    (name email : string) (submitted_status : option string) (db : Store) :
  let status := Form "Lead" submitted_status in
  let result := create_contact now name email None None status None db in
  let stored :=
    Contact.mk (next_rowid (Contact.id <$> contacts db)) name email None None
      status None now in
  result.2 = RedirectResponse "/contacts"
  ∧ edit_contact (Contact.id stored) result.1 = TemplateResponse stored
  ∧ stored ∈ list_contacts result.1
  ∧ stored ∈ intel_view result.1
  ∧ (is_canonical status →
     ∃ bucket, kanban_board result.1 !! status = Some bucket ∧ stored ∈ bucket)
  ∧ (submitted_status = None ∨ submitted_status = Some EmptyString →
     ∃ bucket, kanban_board result.1 !! "Lead" = Some bucket ∧ stored ∈ bucket).
Proof.
  cbv zeta.
  set (status := Form "Lead" submitted_status).
  set (stored := Contact.mk _ name email None None status None now).
  destruct (edit_contact_after_insert db name email None None status None now)
    as [Hget _].
  assert (Hin : stored ∈ contacts (create_contact now name email None None
                                     status None db).1).
  { simpl. apply elem_of_app. right. by apply list_elem_of_singleton. }
  assert (Hboard : is_canonical status →
            ∃ bucket,
              kanban_board (create_contact now name email None None status
                              None db).1 !! status = Some bucket
              ∧ stored ∈ bucket).
  { intros Hcanon. eexists. rewrite kanban_board_lookup.
    rewrite decide_True by exact Hcanon. split; [reflexivity|].
    apply list_elem_of_filter. by split. }
  split; [done|]. split; [exact Hget|].
  split; [|split; [|split; [exact Hboard|]]].
  - unfold list_contacts. by rewrite order_by_created_at_desc_perm.
  - unfold intel_view. by rewrite order_by_company_perm.
  - intros Hnone.
    assert (Hlead : status = "Lead")
      by (subst status; by destruct Hnone as [-> | ->]).
    rewrite <- Hlead. apply Hboard. rewrite Hlead.
    apply canonical_iff. by left.
Qed.
